(** * A DOM-based to-do list (src/app.ts): task store, view projection,
      inline edit and JSON persistence.

    The development embeds the TypeScript program function by function.
    JavaScript strings are sequences of UTF-16 code units, the module-level
    variables [todos] and [currentFilter], the browser's [localStorage] and
    the rendered page are fields of one [World] record that every operation
    threads through, and thrown exceptions are an explicit [completion]. *)

From Stdlib Require Import NArith String Ascii Decimal.
From stdpp Require Import gmap list.

Open Scope N_scope.
Set Warnings "-register-all".

(** ** JavaScript strings *)

(** A code unit is a 16-bit number; the bound is the predicate [wf_string]. *)
Definition code_unit := N.
Definition jsstring := list code_unit.

Definition wf_unit (c : code_unit) : Prop := c < 65536.
Definition wf_string (s : jsstring) : Prop := Forall wf_unit s.

(** The ASCII string literals of the source, written as Rocq strings. *)
Definition lit (s : string) : jsstring :=
  map N_of_ascii (list_ascii_of_string s).

(** ToBoolean on a string: only the empty string is falsy. *)
Definition truthy (s : jsstring) : bool :=
  match s with [] => false | _ :: _ => true end.

(** WhiteSpace and LineTerminator of ECMAScript, the code units that
    [String.prototype.trim] strips. *)
Definition is_white (c : code_unit) : bool :=
  ((9 <=? c) && (c <=? 13))
  || (c =? 32) || (c =? 160) || (c =? 5760)
  || ((8192 <=? c) && (c <=? 8202))
  || (c =? 8232) || (c =? 8233) || (c =? 8239) || (c =? 8287)
  || (c =? 12288) || (c =? 65279).

Fixpoint trimStart (s : jsstring) : jsstring :=
  match s with
  | [] => []
  | c :: r => if is_white c then trimStart r else s
  end.

Definition trimEnd (s : jsstring) : jsstring := rev (trimStart (rev s)).

Definition trim (s : jsstring) : jsstring := trimEnd (trimStart s).

(** Number::toString of an array length: its decimal digits. *)
Fixpoint uint_units (u : Decimal.uint) : jsstring :=
  match u with
  | Nil => []
  | D0 u => 48 :: uint_units u
  | D1 u => 49 :: uint_units u
  | D2 u => 50 :: uint_units u
  | D3 u => 51 :: uint_units u
  | D4 u => 52 :: uint_units u
  | D5 u => 53 :: uint_units u
  | D6 u => 54 :: uint_units u
  | D7 u => 55 :: uint_units u
  | D8 u => 56 :: uint_units u
  | D9 u => 57 :: uint_units u
  end.

Definition number_toString (n : nat) : jsstring := uint_units (Nat.to_uint n).

(** ** JSON values and exceptions *)

(** The values [JSON.parse] can produce. A number is kept as the text that
    denotes it: its rounding to a double is not represented, and nothing
    below inspects a number. An object is the list of its own properties in
    creation order (JavaScript enumerates integer-like keys first; nothing
    below enumerates the keys of a parsed object). *)
Inductive json :=
| JNull
| JBool (b : bool)
| JNumber (lexeme : jsstring)
| JString (s : jsstring)
| JArray (elements : list json)
| JObject (properties : list (jsstring * json)).

Inductive exn := SyntaxError.

(** The outcome of evaluating an expression that may throw. *)
Inductive completion (A : Type) :=
| Normal (a : A)
| Throw (e : exn).
Arguments Normal {A} a.
Arguments Throw {A} e.

(** ** Data model *)

(** [interface Todo]. *)
Record Todo := mkTodo {
  id : jsstring;
  title : jsstring;
  completed : bool
}.

#[global] Instance Todo_eq_dec : EqDecision Todo.
Proof. solve_decision. Defined.

(** The type of [currentFilter]: ['all' | 'active' | 'completed']. *)
Inductive Filter := All | Active | Completed.

#[global] Instance Filter_eq_dec : EqDecision Filter.
Proof. solve_decision. Defined.

(** [const STORAGE_KEY = 'ts-todo-items']. *)
Definition STORAGE_KEY : jsstring := lit "ts-todo-items".

(** A [Todo] as the JavaScript object it is at run time: the three own
    properties, in the order the object literal of [addTodo] creates them
    (a spread copy keeps that order). *)
Definition json_of_todo (t : Todo) : json :=
  JObject [(lit "id", JString (id t));
           (lit "title", JString (title t));
           (lit "completed", JBool (completed t))].

Definition json_of_todos (l : list Todo) : json := JArray (map json_of_todo l).

(** ** JSON.stringify, at the type [Todo[]] of its only call site *)

(** Code units that the grammar of JSON names, here and in the parser:
    34 double quote, 44 comma, 45 minus, 46 full stop, 47 solidus,
    48 to 57 the digits, 58 colon, 91 and 93 square brackets, 92 backslash,
    123 and 125 braces, 101 and 69 the exponent letters, 117 the letter of
    a unicode escape. *)

Definition hex_digit (d : N) : code_unit := if d <? 10 then 48 + d else 87 + d.

(** UnicodeEscape: backslash, [u] and four lowercase hexadecimal digits. *)
Definition unicode_escape (c : code_unit) : jsstring :=
  [92; 117; hex_digit (c / 4096); hex_digit ((c / 256) mod 16);
   hex_digit ((c / 16) mod 16); hex_digit (c mod 16)].

Definition is_high_surrogate (c : code_unit) : bool := (55296 <=? c) && (c <=? 56319).
Definition is_low_surrogate (c : code_unit) : bool := (56320 <=? c) && (c <=? 57343).

(** One code unit that is not the first half of a surrogate pair. *)
Definition quote_unit (c : code_unit) : jsstring :=
  if c =? 8 then lit "\b"
  else if c =? 9 then lit "\t"
  else if c =? 10 then lit "\n"
  else if c =? 12 then lit "\f"
  else if c =? 13 then lit "\r"
  else if c =? 34 then [92; 34]
  else if c =? 92 then lit "\\"
  else if (c <? 32) || is_low_surrogate c then unicode_escape c
  else [c].

(** The body of QuoteJSONString: a well-formed surrogate pair is copied,
    a lone surrogate is escaped. *)
Fixpoint quote_units (s : jsstring) : jsstring :=
  match s with
  | [] => []
  | c :: r =>
    if is_high_surrogate c then
      match r with
      | d :: r' =>
        if is_low_surrogate d then c :: d :: quote_units r'
        else unicode_escape c ++ quote_units r
      | [] => unicode_escape c
      end
    else quote_unit c ++ quote_units r
  end.

Definition QuoteJSONString (s : jsstring) : jsstring := 34 :: quote_units s ++ [34].

Fixpoint join (sep : jsstring) (parts : list jsstring) : jsstring :=
  match parts with
  | [] => []
  | [p] => p
  | p :: ps => p ++ sep ++ join sep ps
  end.

Definition stringify_bool (b : bool) : jsstring :=
  if b then lit "true" else lit "false".

(** SerializeJSONObject on a [Todo], without indentation. *)
Definition stringify_todo (t : Todo) : jsstring :=
  lit "{" ++ QuoteJSONString (lit "id") ++ lit ":" ++ QuoteJSONString (id t)
  ++ lit "," ++ QuoteJSONString (lit "title") ++ lit ":" ++ QuoteJSONString (title t)
  ++ lit "," ++ QuoteJSONString (lit "completed") ++ lit ":"
  ++ stringify_bool (completed t) ++ lit "}".

(** SerializeJSONArray: the elements separated by commas, in brackets. *)
Definition JSON_stringify (l : list Todo) : jsstring :=
  lit "[" ++ join (lit ",") (map stringify_todo l) ++ lit "]".

(** ** JSON.parse *)

Definition is_json_white (c : code_unit) : bool :=
  (c =? 9) || (c =? 10) || (c =? 13) || (c =? 32).

Fixpoint skip_white (s : jsstring) : jsstring :=
  match s with
  | [] => []
  | c :: r => if is_json_white c then skip_white r else s
  end.

Definition hex_value (c : code_unit) : option N :=
  if (48 <=? c) && (c <=? 57) then Some (c - 48)
  else if (97 <=? c) && (c <=? 102) then Some (c - 87)
  else if (65 <=? c) && (c <=? 70) then Some (c - 55)
  else None.

(** The character a single-letter escape stands for. *)
Definition unescape (e : code_unit) : option code_unit :=
  if e =? 34 then Some 34
  else if e =? 92 then Some 92
  else if e =? 47 then Some 47
  else if e =? 98 then Some 8
  else if e =? 102 then Some 12
  else if e =? 110 then Some 10
  else if e =? 114 then Some 13
  else if e =? 116 then Some 9
  else None.

(** The characters of a string literal after its opening quote, up to and
    including the closing quote; returns the string denoted and the text
    that follows. *)
Fixpoint parse_chars (s : jsstring) : option (jsstring * jsstring) :=
  match s with
  | [] => None
  | c :: r =>
    if c =? 34 then Some ([], r)
    else if c =? 92 then
      match r with
      | [] => None
      | e :: r1 =>
        if e =? 117 then
          match r1 with
          | h3 :: h2 :: h1 :: h0 :: r2 =>
            a ← hex_value h3; b ← hex_value h2;
            c' ← hex_value h1; d ← hex_value h0;
            '(str, rest) ← parse_chars r2;
            Some ((a * 4096 + b * 256 + c' * 16 + d) :: str, rest)
          | _ => None
          end
        else
          u ← unescape e;
          '(str, rest) ← parse_chars r1;
          Some (u :: str, rest)
      end
    else if c <? 32 then None
    else '(str, rest) ← parse_chars r; Some (c :: str, rest)
  end.

Definition is_digit (c : code_unit) : bool := (48 <=? c) && (c <=? 57).

(** The longest prefix of decimal digits and what follows it. *)
Fixpoint span_digits (s : jsstring) : jsstring * jsstring :=
  match s with
  | [] => ([], [])
  | c :: r =>
    if is_digit c then let '(ds, rest) := span_digits r in (c :: ds, rest)
    else ([], s)
  end.

(** The exponent part of a number, if there is one. *)
Definition parse_exponent (acc s : jsstring) : option (jsstring * jsstring) :=
  match s with
  | c :: r =>
    if (c =? 101) || (c =? 69) then
      let '(sign, r1) :=
        match r with
        | g :: r' => if (g =? 43) || (g =? 45) then ([g], r') else ([], r)
        | [] => ([], [])
        end in
      match span_digits r1 with
      | ([], _) => None
      | (ds, rest) => Some (acc ++ c :: sign ++ ds, rest)
      end
    else Some (acc, s)
  | [] => Some (acc, [])
  end.

(** The fraction part of a number, if there is one, then the exponent. *)
Definition parse_fraction (acc s : jsstring) : option (jsstring * jsstring) :=
  match s with
  | c :: r =>
    if c =? 46 then
      match span_digits r with
      | ([], _) => None
      | (ds, rest) => parse_exponent (acc ++ c :: ds) rest
      end
    else parse_exponent acc s
  | [] => Some (acc, [])
  end.

(** A JSON number: optional minus, [0] or a nonzero digit and digits,
    optional fraction, optional exponent. *)
Definition parse_number (s : jsstring) : option (jsstring * jsstring) :=
  let '(sign, s1) :=
    match s with
    | c :: r => if c =? 45 then ([c], r) else ([], s)
    | [] => ([], [])
    end in
  match s1 with
  | [] => None
  | c :: r =>
    if c =? 48 then parse_fraction (sign ++ [c]) r
    else if is_digit c then
      let '(ds, rest) := span_digits r in parse_fraction (sign ++ c :: ds) rest
    else None
  end.

(** [expect word s] is what follows [word] at the head of [s]. *)
Fixpoint expect (word s : jsstring) : option jsstring :=
  match word with
  | [] => Some s
  | w :: word' =>
    match s with
    | c :: r => if c =? w then expect word' r else None
    | [] => None
    end
  end.

(** CreateDataProperty on a property list: an existing key keeps its place
    and takes the new value, a new key goes last. *)
Fixpoint define_property (props : list (jsstring * json)) (k : jsstring) (v : json)
  : list (jsstring * json) :=
  match props with
  | [] => [(k, v)]
  | (k', v') :: ps =>
    if decide (k' = k) then (k, v) :: ps else (k', v') :: define_property ps k v
  end.

Definition make_object (members : list (jsstring * json)) : json :=
  JObject (fold_left (fun props kv => define_property props kv.1 kv.2) members []).

(** One [key : value] member whose opening quote has been read. The value
    parser is a parameter so that the three mutually recursive functions
    below share this step. *)
Definition parse_member (value : jsstring -> option (json * jsstring)) (s : jsstring)
  : option ((jsstring * json) * jsstring) :=
  '(k, r1) ← parse_chars s;
  match skip_white r1 with
  | c :: r2 =>
    if c =? 58 then '(v, r3) ← value r2; Some ((k, v), r3) else None
  | [] => None
  end.

(** Recursive descent. Every recursive call is on a strictly shorter text
    and one unit of fuel less, so fuel equal to the length of the text is
    never exhausted. *)
Fixpoint parse_value (fuel : nat) (s : jsstring) {struct fuel}
  : option (json * jsstring) :=
  match fuel with
  | O => None
  | S f =>
    match skip_white s with
    | [] => None
    | c :: r =>
      if c =? 123 then
        match skip_white r with
        | d :: r1 =>
          if d =? 125 then Some (JObject [], r1)
          else if d =? 34 then
            '(m, r2) ← parse_member (parse_value f) r1;
            '(ms, r3) ← parse_members f r2;
            Some (make_object (m :: ms), r3)
          else None
        | [] => None
        end
      else if c =? 91 then
        match skip_white r with
        | d :: r1 =>
          if d =? 93 then Some (JArray [], r1)
          else
            '(v, r2) ← parse_value f (d :: r1);
            '(vs, r3) ← parse_elements f r2;
            Some (JArray (v :: vs), r3)
        | [] => None
        end
      else if c =? 34 then '(str, r1) ← parse_chars r; Some (JString str, r1)
      else if c =? 116 then r1 ← expect (lit "rue") r; Some (JBool true, r1)
      else if c =? 102 then r1 ← expect (lit "alse") r; Some (JBool false, r1)
      else if c =? 110 then r1 ← expect (lit "ull") r; Some (JNull, r1)
      else '(lexeme, r1) ← parse_number (c :: r); Some (JNumber lexeme, r1)
    end
  end
with parse_elements (fuel : nat) (s : jsstring) {struct fuel}
  : option (list json * jsstring) :=
  match fuel with
  | O => None
  | S f =>
    match skip_white s with
    | [] => None
    | c :: r =>
      if c =? 93 then Some ([], r)
      else if c =? 44 then
        '(v, r1) ← parse_value f r;
        '(vs, r2) ← parse_elements f r1;
        Some (v :: vs, r2)
      else None
    end
  end
with parse_members (fuel : nat) (s : jsstring) {struct fuel}
  : option (list (jsstring * json) * jsstring) :=
  match fuel with
  | O => None
  | S f =>
    match skip_white s with
    | [] => None
    | c :: r =>
      if c =? 125 then Some ([], r)
      else if c =? 44 then
        match skip_white r with
        | d :: r1 =>
          if d =? 34 then
            '(m, r2) ← parse_member (parse_value f) r1;
            '(ms, r3) ← parse_members f r2;
            Some (m :: ms, r3)
          else None
        | [] => None
        end
      else None
    end
  end.

(** [JSON.parse(text)]: one value with white space around it, or a
    SyntaxError. *)
Definition JSON_parse (text : jsstring) : completion json :=
  match parse_value (length text) text with
  | Some (v, rest) =>
    match skip_white rest with
    | [] => Normal v
    | _ :: _ => Throw SyntaxError
    end
  | None => Throw SyntaxError
  end.

(** ** The page and the world *)

Inductive display := block | flex | none.

(** One [li.todo-item] as [render] builds it. *)
Record Row := mkRow {
  dataset_id : jsstring;
  checkbox_checked : bool;
  label_className : jsstring;
  label_textContent : jsstring
}.

(** What [render] and [setFilter] write into the document. *)
Record Page := mkPage {
  main_display : display;
  todoList : list Row;
  todoCount_textContent : jsstring;
  footer_display : display;
  toggleAll_checked : bool;
  selected_filter : Filter
}.

(** The module-level variables and everything outside the program that it
    reads or writes. [random n] is the string that the [n]-th evaluation of
    [Math.random().toString(36).slice(2, 9)] yields; [setItem_calls] and
    [render_calls] count the writes to storage and the render passes. *)
Record World := mkWorld {
  todos : list Todo;
  currentFilter : Filter;
  localStorage : gmap jsstring jsstring;
  page : Page;
  setItem_calls : nat;
  render_calls : nat;
  random : nat -> jsstring;
  random_calls : nat
}.

Definition set_todos (l : list Todo) (w : World) : World :=
  mkWorld l (currentFilter w) (localStorage w) (page w)
          (setItem_calls w) (render_calls w) (random w) (random_calls w).

Definition set_currentFilter (f : Filter) (w : World) : World :=
  mkWorld (todos w) f (localStorage w) (page w)
          (setItem_calls w) (render_calls w) (random w) (random_calls w).

Definition set_page (p : Page) (w : World) : World :=
  mkWorld (todos w) (currentFilter w) (localStorage w) p
          (setItem_calls w) (render_calls w) (random w) (random_calls w).

(** ** The program *)

(** [localStorage.setItem(STORAGE_KEY, JSON.stringify(todos))]. *)
Definition saveTodos (w : World) : World :=
  mkWorld (todos w) (currentFilter w)
          (<[STORAGE_KEY := JSON_stringify (todos w)]> (localStorage w)) (page w)
          (S (setItem_calls w)) (render_calls w) (random w) (random_calls w).

(** The body of the [try] block of [loadTodos]: [getItem] gives [null] for
    an absent key, and [!raw] holds for [null] and for the empty string. *)
Definition loadTodos_try (storage : gmap jsstring jsstring) : completion json :=
  match storage !! STORAGE_KEY with
  | None => Normal (JArray [])
  | Some raw => if negb (truthy raw) then Normal (JArray []) else JSON_parse raw
  end.

(** [loadTodos]: the [catch] clause logs the exception to the console and
    returns the empty array. The result is the value returned together with
    the console after the call; the cast [as Todo[]] checks nothing. *)
Definition loadTodos (storage : gmap jsstring jsstring) (console : list exn)
  : completion json * list exn :=
  match loadTodos_try storage with
  | Normal parsed => (Normal parsed, console)
  | Throw e => (Normal (JArray []), console ++ [e])
  end.

(** [uid]: one draw from the random source. *)
Definition uid (w : World) : jsstring * World :=
  (random w (random_calls w),
   mkWorld (todos w) (currentFilter w) (localStorage w) (page w)
           (setItem_calls w) (render_calls w) (random w) (S (random_calls w))).

(** The callback of the first [filter] in [render]. *)
Definition shown (f : Filter) (t : Todo) : bool :=
  if decide (f = Active) then negb (completed t)
  else if decide (f = Completed) then completed t
  else true.

Definition render_row (t : Todo) : Row :=
  mkRow (id t) (completed t)
        (lit "label" ++ (if completed t then lit " completed" else []))
        (title t).

Definition render (w : World) : World :=
  let main := if negb (Nat.eqb (length (todos w)) 0) then block else none in
  let filtered := List.filter (shown (currentFilter w)) (todos w) in
  let remaining := length (List.filter (fun t => negb (completed t)) (todos w)) in
  let count :=
    number_toString remaining ++ lit " item"
    ++ (if negb (Nat.eqb remaining 1) then lit "s" else []) ++ lit " left" in
  let footer := if negb (Nat.eqb (length (todos w)) 0) then flex else none in
  let toggle_all :=
    Nat.ltb 0 (length (todos w)) && forallb (fun t => completed t) (todos w) in
  mkWorld (todos w) (currentFilter w) (localStorage w)
          (mkPage main (map render_row filtered) count footer toggle_all
                  (selected_filter (page w)))
          (setItem_calls w) (S (render_calls w)) (random w) (random_calls w).

Definition addTodo (title0 : jsstring) (w : World) : World :=
  let '(i, w1) := uid w in
  let t := mkTodo i (trim title0) false in
  if negb (truthy (title t)) then w1
  else render (saveTodos (set_todos (t :: todos w1) w1)).

Definition removeTodo (id0 : jsstring) (w : World) : World :=
  render (saveTodos (set_todos
    (List.filter (fun t => negb (bool_decide (id t = id0))) (todos w)) w)).

Definition toggleTodo (id0 : jsstring) (w : World) : World :=
  render (saveTodos (set_todos
    (map (fun t => if bool_decide (id t = id0)
                   then mkTodo (id t) (title t) (negb (completed t)) else t)
         (todos w)) w)).

Definition updateTodoTitle (id0 title0 : jsstring) (w : World) : World :=
  render (saveTodos (set_todos
    (map (fun t => if bool_decide (id t = id0)
                   then mkTodo (id t) (trim title0) (completed t) else t)
         (todos w)) w)).

Definition clearCompleted (w : World) : World :=
  render (saveTodos (set_todos
    (List.filter (fun t => negb (completed t)) (todos w)) w)).

Definition setFilter (f : Filter) (w : World) : World :=
  let w1 := set_currentFilter f w in
  let p := page w1 in
  render (set_page (mkPage (main_display p) (todoList p) (todoCount_textContent p)
                           (footer_display p) (toggleAll_checked p) f) w1).

(** The [change] handler of the toggle-all checkbox. *)
Definition toggleAll (checked : bool) (w : World) : World :=
  render (saveTodos (set_todos
    (map (fun t => mkTodo (id t) (title t) checked) (todos w)) w)).

(** ** Inline editing *)

(** What the closure [commit] of [startEdit] captures: the todo of the row
    and the edit field, whose value the user changes freely. *)
Record EditSession := mkEdit {
  edit_todo : Todo;
  editInput_value : jsstring
}.

(** The value sanitization of a text input: a value assigned to the field
    loses its line feeds (10) and carriage returns (13). *)
Definition strip_newlines (s : jsstring) : jsstring :=
  List.filter (fun c => negb ((c =? 10) || (c =? 13))) s.

(** The session that [startEdit] opens: [editInput.value = todo.title]
    goes through the sanitization of the field. Putting the field in the
    place of the row, the focus and the caret change the document only and
    no value that [commit] reads; they are not part of the session. *)
Definition startEdit (todo : Todo) : EditSession :=
  mkEdit todo (strip_newlines (title todo)).

Definition commit (e : EditSession) (w : World) : World :=
  let val := trim (editInput_value e) in
  if truthy val then updateTodoTitle (id (edit_todo e)) val w
  else removeTodo (id (edit_todo e)) w.

(** ** User actions *)

(** The events that the handlers of the page react to: Enter in the
    new-task field, a row's checkbox and delete button, blur or Enter and
    Escape in the edit field, the clear-completed button, the toggle-all
    checkbox and the filter links. A double click on a label is not among
    them: it only opens the edit field of [startEdit], changing neither
    the collection nor storage nor the filter and calling neither [render]
    nor [uid]; the field it opens comes back as [EditCommit] or
    [EditEscape]. *)
Inductive Action :=
| NewTodoEnter (value : jsstring)
| CheckboxChange (t : Todo)
| DestroyClick (t : Todo)
| EditCommit (e : EditSession)
| EditEscape
| ClearCompletedClick
| ToggleAllChange (checked : bool)
| FilterClick (f : Filter).

Definition handle (w : World) (a : Action) : World :=
  match a with
  | NewTodoEnter value => addTodo value w
  | CheckboxChange t => toggleTodo (id t) w
  | DestroyClick t => removeTodo (id t) w
  | EditCommit e => commit e w
  | EditEscape => render w
  | ClearCompletedClick => clearCompleted w
  | ToggleAllChange checked => toggleAll checked w
  | FilterClick f => setFilter f w
  end.

(** A session of the page: the actions handled one after the other. *)
Definition run (w : World) (actions : list Action) : World :=
  fold_left handle actions w.

(** ** Notions of the specification *)

(** A title is blank when it is empty or made of white space only. *)
Definition blank (s : jsstring) : Prop := Forall (fun c => is_white c = true) s.

(** The remaining count in the specification's words: the number of tasks
    with [completed = false]. *)
Fixpoint remaining_count (l : list Todo) : nat :=
  match l with
  | [] => O
  | t :: l' => if completed t then remaining_count l' else S (remaining_count l')
  end.

(** The tasks of a collection are identified by their ids. *)
Definition ids (l : list Todo) : list jsstring := map id l.

(** [changes_only id0 f l l']: [l'] is [l] with [f] applied to every task
    whose id is [id0], every other task being the same, position by
    position. *)
Definition changes_only (id0 : jsstring) (f : Todo -> Todo) (l l' : list Todo) : Prop :=
  Forall2 (fun t t' => t' = if decide (id t = id0) then f t else t) l l'.

Definition flip_completed (t : Todo) : Todo :=
  mkTodo (id t) (title t) (negb (completed t)).

Definition with_title (s : jsstring) (t : Todo) : Todo :=
  mkTodo (id t) s (completed t).

(** Persisting and rendering, the tail of every mutation. *)
Definition persisted (l : list Todo) (w w' : World) : Prop :=
  todos w' = l
  /\ localStorage w' = <[STORAGE_KEY := JSON_stringify l]> (localStorage w)
  /\ setItem_calls w' = S (setItem_calls w)
  /\ render_calls w' = S (render_calls w)
  /\ page w' = page (render (set_todos l w)).

(** No title of the collection is blank. *)
Definition titled (l : list Todo) : Prop := Forall (fun t => ~ blank (title t)) l.

(** Storage holds the text of the current collection. *)
Definition synced (w : World) : Prop :=
  localStorage w !! STORAGE_KEY = Some (JSON_stringify (todos w)).

(** The strings of a task stay within sixteen bits. *)
Definition wf_todo (t : Todo) : Prop := wf_string (id t) /\ wf_string (title t).

(** Reading a JavaScript value at the type [Todo[]]: an array of objects
    that each have a string [id], a string [title] and a boolean
    [completed]. *)
Fixpoint get_property (props : list (jsstring * json)) (k : jsstring) : option json :=
  match props with
  | [] => None
  | (k', v) :: ps => if decide (k' = k) then Some v else get_property ps k
  end.

Definition todo_of_json (v : json) : option Todo :=
  match v with
  | JObject props =>
    match get_property props (lit "id"), get_property props (lit "title"),
          get_property props (lit "completed") with
    | Some (JString i), Some (JString ti), Some (JBool c) => Some (mkTodo i ti c)
    | _, _, _ => None
    end
  | _ => None
  end.

Definition todos_of_json (v : json) : option (list Todo) :=
  match v with
  | JArray elements => mapM todo_of_json elements
  | _ => None
  end.

(** What follows the first task in the text of a collection. *)
Fixpoint elements_text (l : list Todo) (rest : jsstring) : jsstring :=
  match l with
  | [] => 93 :: rest
  | t :: l' => 44 :: (stringify_todo t ++ elements_text l' rest)
  end.

(** Titles as [addTodo] and [commit] store them: trimmed and not empty. *)
Definition trimmed (l : list Todo) : Prop :=
  Forall (fun t => trim (title t) = title t /\ title t <> []) l.

(** The actions whose handler reaches [saveTodos]: every one but a filter
    click, Escape, and Enter on a title that trims to nothing. *)
Definition writes (a : Action) : bool :=
  match a with
  | NewTodoEnter value => truthy (trim value)
  | EditEscape | FilterClick _ => false
  | CheckboxChange _ | DestroyClick _ | EditCommit _
  | ClearCompletedClick | ToggleAllChange _ => true
  end.

(** The actions whose handler reaches [render]. *)
Definition renders (a : Action) : bool :=
  match a with
  | NewTodoEnter value => truthy (trim value)
  | _ => true
  end.

(** The actions whose handler calls [uid]. *)
Definition draws (a : Action) : bool :=
  match a with
  | NewTodoEnter _ => true
  | _ => false
  end.

(** The rows shown when the filter is [f]. *)
Definition rows_under (f : Filter) (w : World) : list Row :=
  todoList (page (render (set_currentFilter f w))).

(** ** Sample worlds *)

Definition empty_page : Page := mkPage none [] [] none false All.

Definition sample_todos : list Todo :=
  [mkTodo (lit "a") (lit "Buy milk") false;
   mkTodo (lit "b") (lit "Write report") true;
   mkTodo (lit "c") (lit "Call home") false].

Definition sample_world : World :=
  mkWorld sample_todos All ∅ empty_page 0 0 (fun n => lit "k" ++ number_toString n) 0.

(** A world whose next draw repeats the id of a task it holds. *)
Definition colliding_world : World :=
  mkWorld [mkTodo (lit "k0") (lit "Old") false] All ∅ empty_page 0 0
          (fun n => lit "k" ++ number_toString n) 0.

(** * Properties *)

(** ** Trimming *)

Section Trim.

Implicit Types s r : jsstring.

Lemma trimStart_blank s : blank s -> trimStart s = [].
Proof.
  induction 1 as [|c r Hc _ IH]; simpl; [done|]. by rewrite Hc.
Qed.

Lemma trimStart_nil_blank s : trimStart s = [] -> blank s.
Proof.
  induction s as [|c r IH]; simpl; [constructor|].
  destruct (is_white c) eqn:Hc; [|done].
  intros H. constructor; [exact Hc|exact (IH H)].
Qed.

(** What [trimStart] returns does not start with white space. *)
Lemma trimStart_head s c r : trimStart s = c :: r -> is_white c = false.
Proof.
  induction s as [|d s' IH]; simpl; [done|].
  destruct (is_white d) eqn:Hd; [auto|].
  by intros [= -> _].
Qed.

Lemma trimStart_fixed c r : is_white c = false -> trimStart (c :: r) = c :: r.
Proof. intros H. simpl. by rewrite H. Qed.

(** [trimStart] removes a blank prefix and nothing else. *)
Lemma trimStart_split s : exists pre, s = pre ++ trimStart s /\ blank pre.
Proof.
  induction s as [|c r [pre [Heq Hpre]]]; simpl.
  - exists []. split; [done|constructor].
  - destruct (is_white c) eqn:Hc.
    + exists (c :: pre). split; [simpl; congruence|by constructor].
    + exists []. split; [done|constructor].
Qed.

Lemma trimStart_snoc s c :
  is_white c = false -> trimStart (s ++ [c]) = trimStart s ++ [c].
Proof.
  intros Hc. induction s as [|d r IH]; simpl.
  - by rewrite Hc.
  - destruct (is_white d); [exact IH|done].
Qed.

Lemma trimEnd_cons c r : is_white c = false -> trimEnd (c :: r) = c :: trimEnd r.
Proof.
  intros Hc. unfold trimEnd. simpl.
  rewrite trimStart_snoc by done. by rewrite rev_app_distr.
Qed.

Lemma blank_rev s : blank s <-> blank (rev s).
Proof. unfold blank. split; [apply Forall_rev|]. intros H. rewrite <- (rev_involutive s). by apply Forall_rev. Qed.

Lemma trimEnd_nil_blank s : trimEnd s = [] <-> blank s.
Proof.
  unfold trimEnd. split.
  - intros H. apply blank_rev, trimStart_nil_blank.
    apply (f_equal (@rev _)) in H. by rewrite rev_involutive in H.
  - intros H. apply blank_rev in H. by rewrite (trimStart_blank _ H).
Qed.

(** [trim] yields the empty string exactly on blank input. *)
Lemma trim_nil_iff s : trim s = [] <-> blank s.
Proof.
  unfold trim. rewrite trimEnd_nil_blank. split.
  - intros H. destruct (trimStart s) as [|c r] eqn:E.
    + by apply trimStart_nil_blank.
    + apply trimStart_head in E. inversion H; congruence.
  - intros H. rewrite (trimStart_blank _ H). constructor.
Qed.

Lemma truthy_trim_false s : truthy (trim s) = false <-> blank s.
Proof.
  rewrite <- trim_nil_iff. destruct (trim s); simpl; split; congruence.
Qed.

Lemma trimEnd_idem s : trimEnd (trimEnd s) = trimEnd s.
Proof.
  unfold trimEnd. rewrite rev_involutive. f_equal.
  destruct (trimStart (rev s)) as [|c r] eqn:E; [done|].
  apply trimStart_fixed. by apply trimStart_head in E.
Qed.

Lemma trimStart_trim s : trimStart (trim s) = trim s.
Proof.
  unfold trim. destruct (trimStart s) as [|c r] eqn:E; [done|].
  apply trimStart_head in E. rewrite trimEnd_cons by done.
  by apply trimStart_fixed.
Qed.

(** Trimming twice is trimming once; [commit] trims and [updateTodoTitle]
    trims again. *)
Lemma trim_idem s : trim (trim s) = trim s.
Proof.
  unfold trim at 1. rewrite trimStart_trim. unfold trim. apply trimEnd_idem.
Qed.

(** A trimmed string that is not empty is not blank. *)
Lemma trim_not_blank s : trim s <> [] -> ~ blank (trim s).
Proof. intros H Hb. apply trim_nil_iff in Hb. by rewrite trim_idem in Hb. Qed.

End Trim.

(** ** Lists of tasks *)

Section Tasks.

Implicit Types (l : list Todo) (t : Todo) (i : jsstring).

(** [Array.prototype.filter] with a boolean callback against the filter
    of a decidable property. *)
Lemma List_filter_filter (f : Todo -> bool) (P : Todo -> Prop)
    `{!forall t, Decision (P t)} l :
  (forall t, f t = true <-> P t) -> List.filter f l = filter P l.
Proof.
  intros Hf. induction l as [|t l IH]; [done|].
  simpl. rewrite filter_cons, IH.
  destruct (decide (P t)) as [HP|HP], (f t) eqn:E; try done.
  - apply Hf in HP. congruence.
  - apply Hf in E. contradiction.
Qed.

Lemma remaining_count_length l :
  length (List.filter (fun t => negb (completed t)) l) = remaining_count l.
Proof.
  induction l as [|t l IH]; [done|].
  simpl. destruct (completed t); simpl; congruence.
Qed.

Lemma elem_of_ids t l : t ∈ l -> id t ∈ ids l.
Proof. intros H. unfold ids. apply list_elem_of_fmap. eauto. Qed.

Lemma map_absent (f : Todo -> Todo) i l :
  i ∉ ids l ->
  map (fun t => if bool_decide (id t = i) then f t else t) l = l.
Proof.
  induction l as [|t l IH]; [done|].
  simpl. intros H. apply not_elem_of_cons in H as [Hne Hl].
  rewrite bool_decide_eq_false_2 by congruence. by rewrite IH.
Qed.

Lemma filter_absent i l :
  i ∉ ids l ->
  List.filter (fun t => negb (bool_decide (id t = i))) l = l.
Proof.
  induction l as [|t l IH]; [done|].
  simpl. intros H. apply not_elem_of_cons in H as [Hne Hl].
  rewrite bool_decide_eq_false_2 by congruence. simpl. by rewrite IH.
Qed.

Lemma map_changes_only (f : Todo -> Todo) i l :
  changes_only i f l
    (map (fun t => if bool_decide (id t = i) then f t else t) l).
Proof.
  induction l as [|t l IH]; simpl; [constructor|].
  constructor; [|exact IH].
  case_bool_decide; case_decide; done.
Qed.

(** In a collection with unique ids, the task with a given id splits the
    collection in two parts that do not contain the id. *)
Lemma split_at_id i l :
  NoDup (ids l) -> i ∈ ids l ->
  exists l1 t l2, l = l1 ++ t :: l2 /\ id t = i /\ (i ∉ ids l1) /\ (i ∉ ids l2).
Proof.
  intros Hnd Hin. unfold ids in Hin.
  apply list_elem_of_fmap in Hin as [t [-> Ht]].
  apply list_elem_of_split in Ht as [l1 [l2 ->]].
  exists l1, t, l2. unfold ids in *. rewrite map_app in Hnd. simpl in Hnd.
  apply NoDup_app in Hnd as (_ & Hdisj & Hnd2).
  apply NoDup_cons in Hnd2 as [Hnot _].
  repeat split; [|exact Hnot].
  intros H1. apply (Hdisj _ H1). left.
Qed.

Lemma map_at_id (f : Todo -> Todo) i l1 t l2 :
  id t = i -> i ∉ ids l1 -> i ∉ ids l2 ->
  map (fun t => if bool_decide (id t = i) then f t else t) (l1 ++ t :: l2)
  = l1 ++ f t :: l2.
Proof.
  intros Ht H1 H2. rewrite map_app. simpl.
  rewrite (map_absent f i l1 H1), (map_absent f i l2 H2).
  by rewrite bool_decide_eq_true_2.
Qed.

Lemma filter_at_id i l1 t l2 :
  id t = i -> i ∉ ids l1 -> i ∉ ids l2 ->
  List.filter (fun t => negb (bool_decide (id t = i))) (l1 ++ t :: l2) = l1 ++ l2.
Proof.
  intros Ht H1 H2. rewrite List.filter_app. simpl.
  rewrite (filter_absent i l1 H1), (filter_absent i l2 H2).
  by rewrite bool_decide_eq_true_2.
Qed.

End Tasks.

(** ** What the operations leave alone *)

Lemma render_todos w : todos (render w) = todos w.
Proof. reflexivity. Qed.

Lemma saveTodos_todos w : todos (saveTodos w) = todos w.
Proof. reflexivity. Qed.

Lemma render_storage w : localStorage (render w) = localStorage w.
Proof. reflexivity. Qed.

(** ** The view *)

(** C8. The rows that [render] shows are, under filter All, all the tasks
    of the collection; under Active, the tasks with [completed = false];
    under Completed, the tasks with [completed = true]; in each case in
    collection order. *)
Theorem visible_projection (w : World) :
  todoList (page (render w)) =
  map render_row
    match currentFilter w with
    | All => todos w
    | Active => filter (fun t => completed t = false) (todos w)
    | Completed => filter (fun t => completed t = true) (todos w)
    end.
Proof.
  unfold render. simpl. f_equal.
  destruct (currentFilter w).
  - induction (todos w) as [|t l IH]; [done|]. simpl. by rewrite IH.
  - apply List_filter_filter. intros t. unfold shown. simpl.
    by destruct (completed t).
  - apply List_filter_filter. intros t. unfold shown. simpl.
    by destruct (completed t).
Qed.

(** The example of the specification: A and C active, B completed. *)
Example visible_projection_sample :
  map dataset_id (todoList (page (render (set_currentFilter Active sample_world))))
    = [lit "a"; lit "c"]
  /\ map dataset_id (todoList (page (render (set_currentFilter Completed sample_world))))
    = [lit "b"]
  /\ map dataset_id (todoList (page (render (set_currentFilter All sample_world))))
    = [lit "a"; lit "b"; lit "c"].
Proof. repeat split. Qed.

(** C9. Whatever the active filter, the count text that [render] writes is
    built from the number of tasks of the whole collection with
    [completed = false]: "1 item left" when that number is one, and the
    number followed by " items left" otherwise, zero included. *)
Theorem remaining_count_text (w : World) (f : Filter) :
  let n := remaining_count (todos w) in
  todoCount_textContent (page (render (set_currentFilter f w))) =
    if Nat.eqb n 1 then lit "1 item left"
    else number_toString n ++ lit " items left".
Proof.
  unfold render. simpl. rewrite remaining_count_length.
  destruct (Nat.eqb_spec (remaining_count (todos w)) 1) as [->|_]; reflexivity.
Qed.

Example number_toString_sample :
  number_toString 0 = lit "0" /\ number_toString 7 = lit "7"
  /\ number_toString 120 = lit "120".
Proof. by repeat split. Qed.

Example remaining_count_text_zero :
  todoCount_textContent (page (render (set_todos [] sample_world))) = lit "0 items left".
Proof. reflexivity. Qed.

Example remaining_count_text_sample :
  forall f, todoCount_textContent (page (render (set_currentFilter f sample_world)))
            = lit "2 items left".
Proof. by intros []. Qed.

(** ** The task store *)

Lemma persisted_intro l w : persisted l w (render (saveTodos (set_todos l w))).
Proof. by repeat split. Qed.

(** C5, as the code has it. [addTodo] draws an id from [uid] first, blank
    title or not. With a title that trims to the empty string it then
    changes neither the collection nor storage nor the page; otherwise it
    puts in front of the collection one new task, with the trimmed title,
    [completed = false] and the id drawn, keeps the existing tasks as they
    are, and persists and renders the result. The id drawn is the next
    string of the random source, whatever ids the collection holds: it is
    not compared with them, and the add after this one draws the string
    after it. *)
Theorem addTodo_spec (w : World) (rawTitle : jsstring) :
  let w' := addTodo rawTitle w in
  random w' = random w
  /\ random_calls w' = S (random_calls w)
  /\ (uid w').1 = random w (S (random_calls w))
  /\ if decide (trim rawTitle = []) then
       todos w' = todos w /\ localStorage w' = localStorage w
       /\ setItem_calls w' = setItem_calls w /\ render_calls w' = render_calls w
       /\ page w' = page w
     else
       persisted (mkTodo (random w (random_calls w)) (trim rawTitle) false :: todos w)
                 w w'.
Proof.
  unfold addTodo. simpl.
  split; [by destruct (trim rawTitle)|].
  split; [by destruct (trim rawTitle)|].
  split; [by destruct (trim rawTitle)|].
  case_decide as E.
  - by rewrite E.
  - destruct (trim rawTitle); [done|]. by repeat split.
Qed.

(** C5 as stated fails where the random source repeats an id in use: the
    task that [addTodo] puts in front then carries the id of a task that
    was already there, and the ids are no longer unique. *)
Lemma addTodo_id_in_use :
  let w := colliding_world in
  let w' := addTodo (lit "New") w in
  trim (lit "New") <> []
  /\ todos w' = mkTodo (lit "k0") (lit "New") false :: todos w
  /\ (lit "k0" ∈ ids (todos w))
  /\ ~ NoDup (ids (todos w')).
Proof.
  repeat split.
  - discriminate.
  - apply list_elem_of_here.
  - intros H. apply NoDup_cons in H as [H _]. apply H. apply list_elem_of_here.
Qed.

(** The examples of the specification: blank titles are rejected, other
    titles are stored trimmed. *)
Example addTodo_blank_sample :
  todos (addTodo [] sample_world) = sample_todos
  /\ todos (addTodo (lit "   ") sample_world) = sample_todos.
Proof. by split. Qed.

Example addTodo_trim_sample :
  todos (addTodo (lit "  Feed the cat ") sample_world)
  = mkTodo (lit "k0") (lit "Feed the cat") false :: sample_todos.
Proof. reflexivity. Qed.

(** C2, as the code has it. [removeTodo] with an id that no task has
    leaves the collection as it is, and still writes the collection to
    storage and renders: the write is not skipped. *)
Theorem removeTodo_absent (w : World) (id0 : jsstring) :
  id0 ∉ ids (todos w) -> persisted (todos w) w (removeTodo id0 w).
Proof.
  intros H. unfold removeTodo. rewrite (filter_absent _ _ H).
  apply persisted_intro.
Qed.

Lemma zz_absent : lit "zz" ∉ ids sample_todos.
Proof.
  intros H. vm_compute in H.
  repeat (apply elem_of_cons in H as [H|H]; [discriminate H|]).
  by apply elem_of_nil in H.
Qed.

Lemma removeTodo_absent_witness :
  (lit "zz" ∉ ids sample_todos)
  /\ persisted sample_todos sample_world (removeTodo (lit "zz") sample_world).
Proof.
  split; [exact zz_absent|].
  exact (removeTodo_absent sample_world (lit "zz") zz_absent).
Defined.

(** C2 as stated fails: removing an absent id from the sample collection
    leaves the collection unchanged, yet storage has been written. *)
Lemma removeTodo_absent_not_skipped :
  let w' := removeTodo (lit "zz") sample_world in
  (lit "zz" ∉ ids (todos sample_world))
  /\ todos w' = todos sample_world
  /\ setItem_calls w' <> setItem_calls sample_world
  /\ localStorage w' <> localStorage sample_world.
Proof.
  repeat split.
  - exact zz_absent.
  - simpl. lia.
  - simpl. intros Heq.
    apply (f_equal (fun m => m !! STORAGE_KEY)) in Heq.
    rewrite lookup_insert_eq in Heq. discriminate Heq.
Qed.

(** C10. [toggleTodo] and [updateTodoTitle] with an id that no task has
    leave every task as it is, and both still write the collection to
    storage and render. *)
Theorem toggle_update_absent (w : World) (id0 rawTitle : jsstring) :
  id0 ∉ ids (todos w) ->
  persisted (todos w) w (toggleTodo id0 w)
  /\ persisted (todos w) w (updateTodoTitle id0 rawTitle w).
Proof.
  intros H. unfold toggleTodo, updateTodoTitle.
  rewrite (map_absent (fun t => mkTodo (id t) (title t) (negb (completed t))) _ _ H).
  rewrite (map_absent (fun t => mkTodo (id t) (trim rawTitle) (completed t)) _ _ H).
  split; apply persisted_intro.
Qed.

Lemma toggle_update_absent_witness :
  (lit "zz" ∉ ids (todos sample_world))
  /\ persisted (todos sample_world) sample_world (toggleTodo (lit "zz") sample_world)
  /\ persisted (todos sample_world) sample_world
       (updateTodoTitle (lit "zz") (lit "New") sample_world).
Proof.
  split; [exact zz_absent|].
  exact (toggle_update_absent sample_world (lit "zz") (lit "New") zz_absent).
Defined.

(** C6. [toggleTodo] with an id of the collection flips [completed] on the
    task with that id, keeping its id and title, and keeps every other
    task the same; where ids are unique that is exactly one task. Toggling
    the same id twice gives back the original collection. *)
Theorem toggleTodo_spec (w : World) (id0 : jsstring) :
  id0 ∈ ids (todos w) ->
  let w' := toggleTodo id0 w in
  changes_only id0 flip_completed (todos w) (todos w')
  /\ persisted (todos w') w w'
  /\ (NoDup (ids (todos w)) ->
      exists l1 t l2, todos w = l1 ++ t :: l2 /\ id t = id0
                      /\ todos w' = l1 ++ flip_completed t :: l2)
  /\ todos (toggleTodo id0 w') = todos w.
Proof.
  intros Hin. simpl. repeat split.
  - apply (map_changes_only flip_completed).
  - intros Hnd. destruct (split_at_id _ _ Hnd Hin) as (l1 & t & l2 & E & Ht & H1 & H2).
    exists l1, t, l2. rewrite E. repeat split; [exact Ht|].
    by apply (map_at_id flip_completed).
  - rewrite map_map. rewrite <- (map_id (todos w)) at 2.
    apply map_ext. intros [i ti c]. simpl.
    destruct (bool_decide (i = id0)) eqn:E; simpl; rewrite E; [|done].
    by rewrite negb_involutive.
Qed.

Lemma toggleTodo_spec_witness :
  let w' := toggleTodo (lit "b") sample_world in
  changes_only (lit "b") flip_completed sample_todos (todos w')
  /\ persisted (todos w') sample_world w'
  /\ (NoDup (ids sample_todos) ->
      exists l1 t l2, sample_todos = l1 ++ t :: l2 /\ id t = lit "b"
                      /\ todos w' = l1 ++ flip_completed t :: l2)
  /\ todos (toggleTodo (lit "b") w') = sample_todos.
Proof.
  apply (toggleTodo_spec sample_world (lit "b")).
  vm_compute. apply list_elem_of_further, list_elem_of_here.
Defined.

(** ** Inline editing *)

Lemma commit_blank e w :
  blank (editInput_value e) -> commit e w = removeTodo (id (edit_todo e)) w.
Proof.
  intros H. unfold commit. apply truthy_trim_false in H. by rewrite H.
Qed.

Lemma commit_not_blank e w :
  trim (editInput_value e) <> [] ->
  commit e w = updateTodoTitle (id (edit_todo e)) (trim (editInput_value e)) w.
Proof.
  intros H. unfold commit. by destruct (trim (editInput_value e)).
Qed.

Lemma titled_filter (f : Todo -> bool) l : titled l -> titled (List.filter f l).
Proof.
  induction 1 as [|t l Ht _ IH]; simpl; [constructor|].
  destruct (f t); [by constructor|exact IH].
Qed.

Lemma titled_map_title i s l :
  ~ blank s -> titled l ->
  titled (map (fun t => if bool_decide (id t = i)
                        then mkTodo (id t) s (completed t) else t) l).
Proof.
  intros Hs. induction 1 as [|t l Ht _ IH]; simpl; [constructor|].
  constructor; [|exact IH]. by case_bool_decide.
Qed.

(** A commit keeps blank titles out of the collection, whatever the draft. *)
Lemma commit_titled e w : titled (todos w) -> titled (todos (commit e w)).
Proof.
  intros H. unfold commit.
  destruct (trim (editInput_value e)) as [|c r] eqn:E; simpl.
  - by apply titled_filter.
  - rewrite <- E, trim_idem. apply titled_map_title; [|exact H].
    apply trim_not_blank. by rewrite E.
Qed.

(** The handlers keep blank titles out of the collection. *)
Lemma handle_titled w a : titled (todos w) -> titled (todos (handle w a)).
Proof.
  intros H. destruct a as [value|t|t|e| | |checked|f]; simpl.
  - unfold addTodo. simpl. destruct (trim value) as [|c r] eqn:E; [exact H|].
    simpl. constructor; [|exact H]. simpl. rewrite <- E.
    apply trim_not_blank. by rewrite E.
  - induction H as [|t' l Ht _ IH]; simpl; constructor; [|exact IH].
    by case_bool_decide.
  - by apply titled_filter.
  - by apply commit_titled.
  - exact H.
  - by apply titled_filter.
  - induction H as [|t' l Ht _ IH]; simpl; constructor; [exact Ht|exact IH].
  - exact H.
Qed.

Lemma run_titled actions w : titled (todos w) -> titled (todos (run w actions)).
Proof.
  revert w. induction actions as [|a actions IH]; intros w H; [exact H|].
  apply IH. by apply handle_titled.
Qed.

(** C7. Committing an edit of a task of the collection trims the draft.
    When the trimmed draft is not empty, the task with the id of the
    session gets the trimmed draft as its title and keeps its id and its
    [completed] flag, and every other task stays the same; when it is
    empty, that task is taken out of the collection and the others stay,
    in order. Either way the result is persisted and rendered. *)
Theorem commit_spec (e : EditSession) (w : World) :
  id (edit_todo e) ∈ ids (todos w) ->
  let id0 := id (edit_todo e) in
  let draft := trim (editInput_value e) in
  let w' := commit e w in
  persisted (todos w') w w' /\
  if decide (draft = []) then
    todos w' = filter (fun t => id t <> id0) (todos w)
    /\ (id0 ∉ ids (todos w'))
    /\ (NoDup (ids (todos w)) ->
        exists l1 t l2, todos w = l1 ++ t :: l2 /\ id t = id0 /\ todos w' = l1 ++ l2)
  else
    changes_only id0 (with_title draft) (todos w) (todos w')
    /\ (NoDup (ids (todos w)) ->
        exists l1 t l2, todos w = l1 ++ t :: l2 /\ id t = id0
                        /\ todos w' = l1 ++ with_title draft t :: l2).
Proof.
  intros Hin. simpl. split.
  { unfold commit. destruct (truthy _); apply persisted_intro. }
  case_decide as E.
  - rewrite commit_blank by (by apply trim_nil_iff).
    assert (Hf : todos (removeTodo (id (edit_todo e)) w)
                 = filter (fun t => id t <> id (edit_todo e)) (todos w)).
    { simpl. apply List_filter_filter. intros t.
      rewrite negb_true_iff, bool_decide_eq_false. done. }
    repeat split; [exact Hf| |].
    + rewrite Hf. unfold ids. intros H.
      apply list_elem_of_fmap in H as [t [Ht H]].
      apply list_elem_of_filter in H as [H _]. by apply H.
    + intros Hnd.
      destruct (split_at_id _ _ Hnd Hin) as (l1 & t & l2 & El & Ht & H1 & H2).
      exists l1, t, l2. repeat split; [exact El|exact Ht|].
      simpl. rewrite El. by apply filter_at_id.
  - rewrite commit_not_blank by done. simpl. rewrite trim_idem. split.
    + apply (map_changes_only (with_title (trim (editInput_value e)))).
    + intros Hnd.
      destruct (split_at_id _ _ Hnd Hin) as (l1 & t & l2 & El & Ht & H1 & H2).
      exists l1, t, l2. repeat split; [exact El|exact Ht|].
      rewrite El. by apply (map_at_id (with_title (trim (editInput_value e)))).
Qed.

(** The examples of the specification: a draft of spaces deletes the task,
    the draft "New title" renames it and nothing else. *)
Example commit_blank_sample :
  todos (commit (mkEdit (mkTodo (lit "b") (lit "Write report") true) (lit "   "))
                sample_world)
  = [mkTodo (lit "a") (lit "Buy milk") false; mkTodo (lit "c") (lit "Call home") false].
Proof. reflexivity. Qed.

Example commit_rename_sample :
  todos (commit (mkEdit (mkTodo (lit "b") (lit "Write report") true) (lit "New title"))
                sample_world)
  = [mkTodo (lit "a") (lit "Buy milk") false;
     mkTodo (lit "b") (lit "New title") true;
     mkTodo (lit "c") (lit "Call home") false].
Proof. reflexivity. Qed.

Lemma b_present : lit "b" ∈ ids (todos sample_world).
Proof. vm_compute. apply list_elem_of_further, list_elem_of_here. Qed.

Lemma commit_spec_witness :
  let e := mkEdit (mkTodo (lit "b") (lit "Write report") true) (lit " New title ") in
  let w' := commit e sample_world in
  persisted (todos w') sample_world w' /\
  if decide (trim (lit " New title ") = []) then
    todos w' = filter (fun t => id t <> lit "b") sample_todos
    /\ (lit "b" ∉ ids (todos w'))
    /\ (NoDup (ids sample_todos) ->
        exists l1 t l2, sample_todos = l1 ++ t :: l2 /\ id t = lit "b"
                        /\ todos w' = l1 ++ l2)
  else
    changes_only (lit "b") (with_title (trim (lit " New title "))) sample_todos (todos w')
    /\ (NoDup (ids sample_todos) ->
        exists l1 t l2, sample_todos = l1 ++ t :: l2 /\ id t = lit "b"
                        /\ todos w' = l1 ++ with_title (trim (lit " New title ")) t :: l2).
Proof.
  exact (commit_spec
           (mkEdit (mkTodo (lit "b") (lit "Write report") true) (lit " New title "))
           sample_world b_present).
Defined.

(** C1, as the code has it. [updateTodoTitle] does not reject a blank
    title: on an id of the collection it gives the task with that id the
    empty title, keeping its id and [completed] flag and every other task,
    and persists and renders. Blank titles are turned away one level up,
    in every collection: a commit with a blank draft is a removal and does
    not reach [updateTodoTitle], and no sequence of user actions puts a
    blank title into a collection that has none. *)
Theorem updateTodoTitle_blank (w : World) :
  (forall id0 rawTitle,
     id0 ∈ ids (todos w) -> blank rawTitle ->
     let w' := updateTodoTitle id0 rawTitle w in
     changes_only id0 (with_title []) (todos w) (todos w')
     /\ persisted (todos w') w w')
  /\ (forall e, blank (editInput_value e) ->
                commit e w = removeTodo (id (edit_todo e)) w)
  /\ (forall actions, titled (todos w) -> titled (todos (run w actions))).
Proof.
  split; [|split].
  - intros id0 rawTitle Hin Hb. simpl. split; [|apply persisted_intro].
    apply trim_nil_iff in Hb. rewrite Hb.
    apply (map_changes_only (with_title [])).
  - intros e. apply commit_blank.
  - intros actions. apply run_titled.
Qed.

Lemma blank_spaces : blank (lit "   ").
Proof. repeat constructor. Qed.

Lemma sample_titled : titled (todos sample_world).
Proof.
  repeat constructor; intros H; apply trim_nil_iff in H; discriminate H.
Qed.

Lemma updateTodoTitle_blank_witness :
  let w' := updateTodoTitle (lit "b") (lit "   ") sample_world in
  let e := mkEdit (mkTodo (lit "b") (lit "Write report") true) (lit "   ") in
  (changes_only (lit "b") (with_title []) (todos sample_world) (todos w')
   /\ persisted (todos w') sample_world w')
  /\ commit e sample_world = removeTodo (lit "b") sample_world
  /\ titled (todos (run sample_world [EditCommit e; NewTodoEnter (lit "  ")])).
Proof.
  destruct (updateTodoTitle_blank sample_world) as (H1 & H2 & H3).
  split; [exact (H1 (lit "b") (lit "   ") b_present blank_spaces)|].
  split.
  - exact (H2 (mkEdit (mkTodo (lit "b") (lit "Write report") true) (lit "   "))
              blank_spaces).
  - exact (H3 _ sample_titled).
Defined.

(** C1 as stated fails: renaming task "b" of the sample collection to a
    title of three spaces is not rejected; the collection changes and the
    task is left with the empty title. *)
Lemma updateTodoTitle_blank_not_rejected :
  let w' := updateTodoTitle (lit "b") (lit "   ") sample_world in
  lit "b" ∈ ids (todos sample_world)
  /\ blank (lit "   ")
  /\ todos w' <> todos sample_world
  /\ mkTodo (lit "b") [] true ∈ todos w'
  /\ setItem_calls w' = S (setItem_calls sample_world).
Proof.
  repeat split.
  - exact b_present.
  - exact blank_spaces.
  - discriminate.
  - vm_compute. apply list_elem_of_further, list_elem_of_here.
Qed.

(** ** Persistence *)

(** Quoting: the short escapes, a control character, the quote, a
    surrogate pair and a lone surrogate. *)
Example quote_units_sample :
  quote_units [8; 9; 10; 12; 13; 92] = lit "\b\t\n\f\r\\"
  /\ quote_units [11] = lit "\u000b"
  /\ quote_units [34] = [92; 34]
  /\ quote_units [55357; 56832] = [55357; 56832]
  /\ quote_units [56832; 55357] = lit "\ude00\ud83d".
Proof. by repeat split. Qed.

Example JSON_stringify_empty : JSON_stringify [] = lit "[]".
Proof. reflexivity. Qed.

(** The parser on a few texts: white space, nesting, a repeated key, and
    texts that are not JSON. *)
Example JSON_parse_sample :
  JSON_parse (lit " [ 1.5e3 , true , null , { } ] ")
  = Normal (JArray [JNumber (lit "1.5e3"); JBool true; JNull; JObject []]).
Proof. reflexivity. Qed.

Example JSON_parse_repeated_key :
  JSON_parse [123; 34; 97; 34; 58; 49; 44; 34; 98; 34; 58; 50; 44; 34; 97; 34; 58; 51; 125]
  = Normal (JObject [([97], JNumber [51]); ([98], JNumber [50])]).
Proof. reflexivity. Qed.

Example JSON_parse_rejects :
  Forall (fun text => JSON_parse (lit text) = Throw SyntaxError)
         [" "; "01"; "1."; "1e"; "-"; "[1,]"; "[1 2]"; "tru"; "nul"; "[";
          "{"; "]"; "1 2"; "undefined"; "NaN"]%string.
Proof. repeat constructor. Qed.

Example JSON_parse_empty : JSON_parse [] = Throw SyntaxError.
Proof. reflexivity. Qed.

Section Quote.

Implicit Types (c d : code_unit) (s rest tail : jsstring).

Lemma hex_value_digit d : d < 16 -> hex_value (hex_digit d) = Some d.
Proof.
  intros H.
  assert (E : d = 0 \/ d = 1 \/ d = 2 \/ d = 3 \/ d = 4 \/ d = 5 \/ d = 6 \/ d = 7
              \/ d = 8 \/ d = 9 \/ d = 10 \/ d = 11 \/ d = 12 \/ d = 13 \/ d = 14
              \/ d = 15) by lia.
  repeat (destruct E as [->|E]; [reflexivity|]). by subst.
Qed.

Lemma hex_digits_value c :
  c < 65536 ->
  c / 4096 * 4096 + (c / 256) mod 16 * 256 + (c / 16) mod 16 * 16 + c mod 16 = c.
Proof.
  intros H.
  pose proof (N.div_mod c 16). pose proof (N.div_mod (c / 16) 16).
  pose proof (N.div_mod (c / 256) 16).
  rewrite (N.Div0.div_div c 16 16) in *. rewrite (N.Div0.div_div c 256 16) in *.
  change (16 * 16) with 256 in *. change (256 * 16) with 4096 in *. lia.
Qed.

Lemma hex_digits_bound c :
  c < 65536 ->
  c / 4096 < 16 /\ (c / 256) mod 16 < 16 /\ (c / 16) mod 16 < 16 /\ c mod 16 < 16.
Proof.
  intros H. split; [apply N.Div0.div_lt_upper_bound; lia|].
  repeat split; apply N.mod_lt; lia.
Qed.

(** Reading back a unicode escape. *)
Lemma parse_chars_escape c tail :
  wf_unit c ->
  parse_chars (unicode_escape c ++ tail)
  = '(str, rest) ← parse_chars tail; Some (c :: str, rest).
Proof.
  intros Hc. unfold wf_unit in Hc. unfold unicode_escape.
  cbn [app parse_chars]. change (92 =? 34) with false. change (92 =? 92) with true.
  change (117 =? 117) with true. cbv iota.
  destruct (hex_digits_bound c Hc) as (H3 & H2 & H1 & H0).
  rewrite !hex_value_digit by done. cbn [mbind option_bind].
  by rewrite hex_digits_value.
Qed.

(** Reading back a code unit that was copied as it is. *)
Lemma parse_chars_raw c tail :
  c <> 34 -> c <> 92 -> 32 <= c ->
  parse_chars (c :: tail) = '(str, rest) ← parse_chars tail; Some (c :: str, rest).
Proof.
  intros H1 H2 H3. cbn [parse_chars].
  destruct (N.eqb_spec c 34); [done|]. destruct (N.eqb_spec c 92); [done|].
  destruct (N.ltb_spec c 32); [lia|done].
Qed.

Ltac known_unit :=
  match goal with
  | |- context [N.eqb ?c ?k] => destruct (N.eqb_spec c k) as [->|?]
  end.

Lemma parse_chars_quote_unit c tail :
  wf_unit c ->
  parse_chars (quote_unit c ++ tail)
  = '(str, rest) ← parse_chars tail; Some (c :: str, rest).
Proof.
  intros Hc. unfold quote_unit.
  repeat (known_unit; [reflexivity|]).
  destruct ((c <? 32) || is_low_surrogate c) eqn:E.
  - by apply parse_chars_escape.
  - apply orb_false_iff in E as [E _]. apply N.ltb_ge in E.
    by apply parse_chars_raw.
Qed.

Lemma surrogate_raw c :
  is_high_surrogate c || is_low_surrogate c = true -> c <> 34 /\ c <> 92 /\ 32 <= c.
Proof.
  unfold is_high_surrogate, is_low_surrogate.
  rewrite orb_true_iff, !andb_true_iff, !N.leb_le. lia.
Qed.

(** Reading back the body of a quoted string gives the string. *)
Lemma parse_chars_quote_units n s rest :
  (length s <= n)%nat -> wf_string s ->
  parse_chars (quote_units s ++ 34 :: rest) = Some (s, rest).
Proof.
  revert s. induction n as [|n IH]; intros s Hn Hs.
  { destruct s; [reflexivity|simpl in Hn; lia]. }
  destruct s as [|c r]; [reflexivity|].
  apply Forall_cons in Hs as [Hc Hr]. simpl in Hn. cbn [quote_units].
  assert (Hone : parse_chars (quote_unit c ++ quote_units r ++ 34 :: rest)
                 = Some (c :: r, rest)).
  { rewrite parse_chars_quote_unit by done. by rewrite IH by (done || lia). }
  assert (Hesc : parse_chars (unicode_escape c ++ quote_units r ++ 34 :: rest)
                 = Some (c :: r, rest)).
  { rewrite parse_chars_escape by done. by rewrite IH by (done || lia). }
  destruct (is_high_surrogate c) eqn:Eh; [|by rewrite <- app_assoc].
  destruct r as [|d r']; [exact Hesc|].
  destruct (is_low_surrogate d) eqn:El; [|by rewrite <- app_assoc].
  apply Forall_cons in Hr as [Hd Hr']. simpl in Hn.
  destruct (surrogate_raw c) as (? & ? & ?); [by rewrite Eh|].
  destruct (surrogate_raw d) as (? & ? & ?); [by rewrite El, orb_true_r|].
  cbn [app]. rewrite !parse_chars_raw by done.
  by rewrite IH by (done || lia).
Qed.

Lemma parse_chars_quote s rest :
  wf_string s -> parse_chars (quote_units s ++ 34 :: rest) = Some (s, rest).
Proof. by apply (parse_chars_quote_units (length s)). Qed.

End Quote.

(** ** The fuel of the parser *)

Section Fuel.

Implicit Types (s r : jsstring) (f : nat).

(** Case analysis on a parser equation. *)
Ltac crack H :=
  repeat (cbn [mbind option_bind] in H;
          match type of H with
          | None = Some _ => discriminate H
          | Some _ = Some _ => injection H as H; subst
          | context [if ?b then _ else _] => destruct b eqn:?
          | context [mbind _ ?m] => destruct m as [?|] eqn:?
          | context [match ?x with _ => _ end] => destruct x eqn:?
          end).

Lemma skip_white_length s : (length (skip_white s) <= length s)%nat.
Proof.
  induction s as [|c s IH]; simpl; [lia|]. destruct (is_json_white c); simpl; lia.
Qed.

Lemma parse_chars_length_le n s str r :
  (length s <= n)%nat -> parse_chars s = Some (str, r) -> (length r <= length s)%nat.
Proof.
  revert s str r. induction n as [|n IH]; intros s str r Hn H.
  { destruct s; [discriminate H|simpl in Hn; lia]. }
  destruct s as [|c s]; [discriminate H|]. cbn [parse_chars] in H. simpl in Hn.
  crack H; simpl in *;
    repeat match goal with
           | E : parse_chars _ = Some _ |- _ => apply IH in E; [|lia]
           end; lia.
Qed.

Lemma parse_chars_length s str r :
  parse_chars s = Some (str, r) -> (length r <= length s)%nat.
Proof. by apply (parse_chars_length_le (length s)). Qed.

Lemma span_digits_length s ds r :
  span_digits s = (ds, r) -> (length r <= length s)%nat.
Proof.
  revert ds r. induction s as [|c s IH]; intros ds r H; simpl in H.
  - injection H as <- <-. simpl. lia.
  - destruct (is_digit c).
    + destruct (span_digits s) as [ds' r'] eqn:E. injection H as <- <-.
      specialize (IH _ _ eq_refl). simpl. lia.
    + injection H as <- <-. lia.
Qed.

Lemma parse_exponent_length acc s lexeme r :
  parse_exponent acc s = Some (lexeme, r) -> (length r <= length s)%nat.
Proof.
  intros H. unfold parse_exponent in H.
  crack H;
    repeat match goal with
           | E : span_digits _ = _ |- _ => apply span_digits_length in E
           | E : match ?x with _ => _ end = _ |- _ => destruct x
           | E : (_, _) = (_, _) |- _ => injection E as <- <-
           end; simpl in *; lia.
Qed.

Lemma parse_fraction_length acc s lexeme r :
  parse_fraction acc s = Some (lexeme, r) -> (length r <= length s)%nat.
Proof.
  intros H. unfold parse_fraction in H.
  crack H;
    repeat match goal with
           | E : span_digits _ = _ |- _ => apply span_digits_length in E
           | E : parse_exponent _ _ = _ |- _ => apply parse_exponent_length in E
           | E : match ?x with _ => _ end = _ |- _ => destruct x
           | E : (_, _) = (_, _) |- _ => injection E as <- <-
           end; simpl in *; lia.
Qed.

Lemma parse_number_length s lexeme r :
  parse_number s = Some (lexeme, r) -> (length r <= length s)%nat.
Proof.
  intros H. unfold parse_number in H.
  crack H;
    repeat match goal with
           | E : match ?x with _ => _ end = _ |- _ => destruct x
           | E : (if ?b then _ else _) = _ |- _ => destruct b
           end; simplify_eq;
    repeat match goal with
           | E : span_digits _ = _ |- _ => apply span_digits_length in E
           | E : parse_fraction _ _ = _ |- _ => apply parse_fraction_length in E
           end; simpl in *; lia.
Qed.

Lemma expect_length word s r : expect word s = Some r -> (length r <= length s)%nat.
Proof.
  revert s. induction word as [|w word IH]; intros s H; simpl in H.
  - injection H as <-. lia.
  - destruct s as [|c s]; [discriminate H|].
    destruct (c =? w); [|discriminate H]. apply IH in H. simpl. lia.
Qed.

Lemma parse_member_length (value : jsstring -> option (json * jsstring)) s m r :
  (forall s' v r', value s' = Some (v, r') -> (length r' <= length s')%nat) ->
  parse_member value s = Some (m, r) -> (length r <= length s)%nat.
Proof.
  intros Hv H. unfold parse_member in H.
  destruct (parse_chars s) as [[k r1]|] eqn:E1; [|discriminate H].
  cbn [mbind option_bind] in H. apply parse_chars_length in E1.
  pose proof (skip_white_length r1) as Hw.
  destruct (skip_white r1) as [|c r2]; [discriminate H|].
  destruct (c =? 58); [|discriminate H].
  destruct (value r2) as [[v r3]|] eqn:E2; [|discriminate H].
  cbn [mbind option_bind] in H. injection H as <- <-.
  apply Hv in E2. simpl in Hw. lia.
Qed.


Lemma parse_member_ext (value1 value2 : jsstring -> option (json * jsstring)) s :
  (forall s', (length s' <= length s)%nat -> value1 s' = value2 s') ->
  parse_member value1 s = parse_member value2 s.
Proof.
  intros Hv. unfold parse_member.
  destruct (parse_chars s) as [[k r1]|] eqn:E1; [|reflexivity].
  cbn [mbind option_bind]. apply parse_chars_length in E1.
  pose proof (skip_white_length r1) as Hw.
  destruct (skip_white r1) as [|c r2]; [reflexivity|].
  destruct (c =? 58); [|reflexivity].
  rewrite Hv; [reflexivity|simpl in Hw; lia].
Qed.

(** What a parser leaves is no longer than what it was given. *)
Lemma parse_length f :
  (forall s v r, parse_value f s = Some (v, r) -> (length r <= length s)%nat)
  /\ (forall s vs r, parse_elements f s = Some (vs, r) -> (length r <= length s)%nat)
  /\ (forall s ms r, parse_members f s = Some (ms, r) -> (length r <= length s)%nat).
Proof.
  induction f as [|f (IHv & IHe & IHm)]; [by repeat split|].
  repeat split; intros s x r H;
    [cbn [parse_value] in H|cbn [parse_elements] in H|cbn [parse_members] in H];
    crack H;
    repeat match goal with
           | E : skip_white ?y = _ |- _ =>
             pose proof (skip_white_length y); rewrite E in *; clear E
           | E : parse_value f _ = Some _ |- _ => apply IHv in E
           | E : parse_elements f _ = Some _ |- _ => apply IHe in E
           | E : parse_members f _ = Some _ |- _ => apply IHm in E
           | E : parse_member _ _ = Some _ |- _ =>
             apply parse_member_length in E; [|exact IHv]
           | E : parse_chars _ = Some _ |- _ => apply parse_chars_length in E
           | E : parse_number _ = Some _ |- _ => apply parse_number_length in E
           | E : expect _ _ = Some _ |- _ => apply expect_length in E
           end; simpl in *; lia.
Qed.


(** One step of the comparison of two runs of a parser. *)
Ltac same_run g g' IHv IHe IHm :=
  repeat match goal with
         | |- ?x = ?x => reflexivity
         | |- context [skip_white ?y] =>
           pose proof (skip_white_length y); destruct (skip_white y)
         | |- context [if ?b then _ else _] => destruct b
         | |- context [parse_member (parse_value g') ?y] =>
           rewrite (parse_member_ext (parse_value g') (parse_value g) y)
             by (intros; apply IHv; simpl in *; lia)
         | |- context [parse_value g' ?y] => rewrite (IHv y) by (simpl in *; lia)
         | |- context [parse_elements g' ?y] => rewrite (IHe y) by (simpl in *; lia)
         | |- context [parse_members g' ?y] => rewrite (IHm y) by (simpl in *; lia)
         | |- context [mbind _ ?m] =>
           let E := fresh "E" in
           destruct m as [[? ?]|] eqn:E; cbn [mbind option_bind];
           [first [apply parse_member_length in E; [|apply parse_length]
                  |apply parse_length in E]|]
         end.

(** More fuel than the length of the text changes nothing. *)
Lemma parse_fuel f f' :
  (f <= f')%nat ->
  (forall s, (length s <= f)%nat -> parse_value f' s = parse_value f s)
  /\ (forall s, (length s <= f)%nat -> parse_elements f' s = parse_elements f s)
  /\ (forall s, (length s <= f)%nat -> parse_members f' s = parse_members f s).
Proof.
  revert f'. induction f as [|g IH]; intros f' Hf.
  { repeat split; intros [|c s] Hs; try (simpl in Hs; lia); by destruct f'. }
  destruct f' as [|g']; [lia|].
  destruct (IH g') as (IHv & IHe & IHm); [lia|].
  repeat split; intros s Hs;
    [cbn [parse_value]|cbn [parse_elements]|cbn [parse_members]];
    same_run g g' IHv IHe IHm.
Qed.

(** [JSON_parse] runs with enough fuel: more would give the same result. *)
Lemma JSON_parse_fuel text f :
  (length text <= f)%nat -> parse_value f text = parse_value (length text) text.
Proof. intros H. by apply (parse_fuel (length text) f). Qed.

End Fuel.

(** ** Writing and reading back *)

Section RoundTrip.

Implicit Types (t : Todo) (l : list Todo) (rest : jsstring) (f : nat).

(** Literal text is replaced by its code units before any unfolding. *)
Ltac literals :=
  repeat match goal with
  | |- context [QuoteJSONString (lit ?s)] =>
    let v := eval vm_compute in (QuoteJSONString (lit s)) in
    change (QuoteJSONString (lit s)) with v
  | |- context [lit ?s] =>
    let v := eval vm_compute in (lit s) in change (lit s) with v
  end.

(** The text of one task followed by [rest], letter by letter. *)
Lemma stringify_todo_app t rest :
  stringify_todo t ++ rest =
  123 :: 34 :: (lit "id" ++ 34 :: 58 :: 34 ::
    (quote_units (id t) ++ 34 :: 44 :: 34 :: (lit "title" ++ 34 :: 58 :: 34 ::
      (quote_units (title t) ++ 34 :: 44 :: 34 :: (lit "completed" ++ 34 :: 58 ::
        (stringify_bool (completed t) ++ 125 :: rest)))))).
Proof.
  unfold stringify_todo. literals. unfold QuoteJSONString.
  repeat first [rewrite <- app_assoc | progress cbn [app]]. reflexivity.
Qed.

(** The parser, one production at a time. *)
Lemma parse_value_object f r :
  parse_value (S f) (123 :: 34 :: r)
  = '(m, r2) ← parse_member (parse_value f) r;
    '(ms, r3) ← parse_members f r2;
    Some (make_object (m :: ms), r3).
Proof. reflexivity. Qed.

Lemma parse_members_comma f r :
  parse_members (S f) (44 :: 34 :: r)
  = '(m, r2) ← parse_member (parse_value f) r;
    '(ms, r3) ← parse_members f r2;
    Some (m :: ms, r3).
Proof. reflexivity. Qed.

Lemma parse_members_close f r : parse_members (S f) (125 :: r) = Some ([], r).
Proof. reflexivity. Qed.

Lemma parse_value_array_object f r :
  parse_value (S f) (91 :: 123 :: r)
  = '(v, r2) ← parse_value f (123 :: r);
    '(vs, r3) ← parse_elements f r2;
    Some (JArray (v :: vs), r3).
Proof. reflexivity. Qed.

Lemma parse_value_array_todo f t rest :
  parse_value (S f) (91 :: (stringify_todo t ++ rest))
  = '(v, r2) ← parse_value f (stringify_todo t ++ rest);
    '(vs, r3) ← parse_elements f r2;
    Some (JArray (v :: vs), r3).
Proof. rewrite stringify_todo_app. apply parse_value_array_object. Qed.

Lemma parse_elements_comma f r :
  parse_elements (S f) (44 :: r)
  = '(v, r1) ← parse_value f r;
    '(vs, r2) ← parse_elements f r1;
    Some (v :: vs, r2).
Proof. reflexivity. Qed.

Lemma parse_elements_close f r : parse_elements (S f) (93 :: r) = Some ([], r).
Proof. reflexivity. Qed.

(** A member whose key needs no escape. *)
Lemma parse_member_plain (value : jsstring -> option (json * jsstring)) k r :
  wf_string k -> quote_units k = k ->
  parse_member value (k ++ 34 :: 58 :: r)
  = '(v, r3) ← value r; Some ((k, v), r3).
Proof.
  intros Hk Hq. unfold parse_member. rewrite <- Hq at 1.
  by rewrite parse_chars_quote.
Qed.

Lemma parse_value_string f s rest :
  wf_string s ->
  parse_value (S f) (34 :: quote_units s ++ 34 :: rest) = Some (JString s, rest).
Proof.
  intros Hs. change (parse_value (S f) (34 :: quote_units s ++ 34 :: rest))
    with ('(str, r1) ← parse_chars (quote_units s ++ 34 :: rest); Some (JString str, r1)).
  by rewrite parse_chars_quote.
Qed.

Lemma parse_value_bool f b rest :
  parse_value (S f) (stringify_bool b ++ rest) = Some (JBool b, rest).
Proof. destruct b; unfold stringify_bool; literals; reflexivity. Qed.

Ltac plain_key := first [by repeat constructor | by vm_compute].

(** Reading back one task. *)
Lemma parse_value_todo f t rest :
  wf_todo t ->
  parse_value (4 + f) (stringify_todo t ++ rest) = Some (json_of_todo t, rest).
Proof.
  intros [Hi Ht]. rewrite stringify_todo_app.
  change (4 + f)%nat with (S (S (S (S f)))).
  rewrite parse_value_object, parse_member_plain by plain_key.
  rewrite parse_value_string by done. cbn [mbind option_bind].
  rewrite parse_members_comma, parse_member_plain by plain_key.
  rewrite parse_value_string by done. cbn [mbind option_bind].
  rewrite parse_members_comma, parse_member_plain by plain_key.
  rewrite parse_value_bool. cbn [mbind option_bind].
  rewrite parse_members_close. reflexivity.
Qed.

Lemma join_elements t l rest :
  join [44] (map stringify_todo (t :: l)) ++ 93 :: rest
  = stringify_todo t ++ elements_text l rest.
Proof.
  revert t. induction l as [|t' l IH]; intros t; [done|].
  change (join [44] (map stringify_todo (t :: t' :: l)))
    with (stringify_todo t ++ [44] ++ join [44] (map stringify_todo (t' :: l))).
  rewrite <- !app_assoc. by rewrite IH.
Qed.

Lemma JSON_stringify_cons t l :
  JSON_stringify (t :: l) = 91 :: (stringify_todo t ++ elements_text l []).
Proof.
  unfold JSON_stringify. change (lit "[") with [91]. change (lit ",") with [44].
  change (lit "]") with [93]. cbn [app]. by rewrite join_elements.
Qed.

Lemma parse_elements_todos f l rest :
  Forall wf_todo l ->
  parse_elements (length l + 5 + f) (elements_text l rest)
  = Some (map json_of_todo l, rest).
Proof.
  induction 1 as [|t l Ht _ IH]; [reflexivity|].
  cbn [length elements_text Nat.add]. rewrite parse_elements_comma.
  replace (length l + 5 + f)%nat with (4 + (length l + 1 + f))%nat at 1 by lia.
  rewrite parse_value_todo by done. cbn [mbind option_bind].
  by rewrite IH.
Qed.

Lemma stringify_todo_length t : (5 <= length (stringify_todo t))%nat.
Proof.
  rewrite <- (app_nil_r (stringify_todo t)), stringify_todo_app.
  cbn [length]. rewrite length_app. cbn [length]. lia.
Qed.

Lemma elements_text_length l rest : (length l < length (elements_text l rest))%nat.
Proof.
  induction l as [|t l IH]; cbn [length elements_text]; [lia|].
  rewrite length_app. lia.
Qed.

(** Reading back the text of a collection: the fuel that [JSON_parse]
    provides, the length of the text, is enough. *)
Lemma JSON_parse_stringify l :
  Forall wf_todo l -> JSON_parse (JSON_stringify l) = Normal (json_of_todos l).
Proof.
  intros Hl. destruct Hl as [|t l Ht Hl]; [reflexivity|].
  unfold JSON_parse. rewrite JSON_stringify_cons.
  pose proof (stringify_todo_length t) as H5.
  pose proof (elements_text_length l []) as Hn.
  match goal with
  | |- context [parse_value ?n _] =>
    assert (Hfuel : exists f, n = S (length l + 5 + f))
  end.
  { exists (length (stringify_todo t) + length (elements_text l []) - (length l + 5))%nat.
    cbn [length]. rewrite length_app. lia. }
  destruct Hfuel as [f ->].
  rewrite parse_value_array_todo.
  replace (length l + 5 + f)%nat with (4 + (length l + 1 + f))%nat at 1 by lia.
  rewrite parse_value_todo by done. cbn [mbind option_bind].
  rewrite parse_elements_todos by done. reflexivity.
Qed.

End RoundTrip.

Lemma todo_of_json_of_todo t : todo_of_json (json_of_todo t) = Some t.
Proof. by destruct t. Qed.

Lemma todos_of_json_of_todos l : todos_of_json (json_of_todos l) = Some l.
Proof.
  unfold todos_of_json, json_of_todos. apply mapM_Some.
  induction l as [|t l IH]; simpl; constructor; [|exact IH].
  apply todo_of_json_of_todo.
Qed.

Lemma JSON_stringify_truthy l : truthy (JSON_stringify l) = true.
Proof. reflexivity. Qed.

(** C4. Saving a collection and loading from the storage so written gives
    back the same tasks, with the same ids, titles and [completed] flags,
    in the same order, and logs nothing. *)
Theorem save_load_roundtrip (w : World) (console : list exn) :
  Forall wf_todo (todos w) ->
  loadTodos (localStorage (saveTodos w)) console
  = (Normal (json_of_todos (todos w)), console)
  /\ todos_of_json (json_of_todos (todos w)) = Some (todos w).
Proof.
  intros Hwf. split; [|apply todos_of_json_of_todos].
  unfold loadTodos, loadTodos_try, saveTodos. cbn [localStorage].
  rewrite lookup_insert_eq, JSON_stringify_truthy. cbn [negb].
  by rewrite JSON_parse_stringify.
Qed.

Lemma sample_wf : Forall wf_todo (todos sample_world).
Proof. repeat constructor. Qed.

Lemma save_load_roundtrip_witness :
  loadTodos (localStorage (saveTodos sample_world)) []
  = (Normal (json_of_todos sample_todos), [])
  /\ todos_of_json (json_of_todos sample_todos) = Some sample_todos.
Proof. exact (save_load_roundtrip sample_world [] sample_wf). Defined.

(** A string with an escape for every kind of character is read back as
    it was written. *)
Example save_load_escapes :
  let t := mkTodo [8; 9; 10; 11; 12; 13; 34; 92; 55357; 56832; 56832; 55357; 65535; 31]
                  (lit "a/b") true in
  JSON_parse (JSON_stringify [t]) = Normal (json_of_todos [t]).
Proof. reflexivity. Qed.

(** C3, as the code has it. [loadTodos] never throws. It returns the empty
    array when the key is absent and when the stored text is empty or is
    not JSON, logging the exception in the last case; whenever the stored
    text is JSON it returns the value parsed, which it does not inspect: a
    well-formed collection is returned as stored, and so is any other
    value. *)
Theorem loadTodos_spec (storage : gmap jsstring jsstring) (console : list exn) :
  (exists v, (loadTodos storage console).1 = Normal v)
  /\ match storage !! STORAGE_KEY with
     | None => loadTodos storage console = (Normal (JArray []), console)
     | Some raw =>
       match JSON_parse raw with
       | Normal v => loadTodos storage console = (Normal v, console)
       | Throw e =>
         loadTodos storage console
         = (Normal (JArray []), if decide (raw = []) then console else console ++ [e])
       end
     end
  /\ (forall raw v l,
        storage !! STORAGE_KEY = Some raw -> JSON_parse raw = Normal v ->
        todos_of_json v = Some l ->
        (loadTodos storage console).1 = Normal v).
Proof.
  unfold loadTodos, loadTodos_try. split; [|split].
  - destruct (storage !! STORAGE_KEY) as [raw|]; [|by eexists].
    destruct (negb (truthy raw)); [by eexists|].
    destruct (JSON_parse raw); by eexists.
  - destruct (storage !! STORAGE_KEY) as [[|c raw]|]; [reflexivity| |reflexivity].
    cbn [truthy negb]. destruct (JSON_parse (c :: raw)); by rewrite ?decide_False.
  - intros raw v l -> Hv _. destruct raw as [|c raw]; [discriminate Hv|].
    cbn [truthy negb]. by rewrite Hv.
Qed.

Lemma loadTodos_spec_witness :
  (loadTodos (localStorage (saveTodos sample_world)) []).1
  = Normal (json_of_todos sample_todos).
Proof.
  destruct (loadTodos_spec (localStorage (saveTodos sample_world)) []) as (_ & _ & H).
  apply (H (JSON_stringify sample_todos) _ sample_todos).
  - apply lookup_insert_eq.
  - reflexivity.
  - reflexivity.
Defined.

(** C3 as stated fails: stored text that is JSON but not a collection of
    tasks is returned as parsed, not replaced by the empty array. *)
Lemma loadTodos_not_validated :
  let storage : gmap jsstring jsstring := {[ STORAGE_KEY := lit "[42]" ]} in
  todos_of_json (JArray [JNumber (lit "42")]) = None
  /\ loadTodos storage [] = (Normal (JArray [JNumber (lit "42")]), [])
  /\ (loadTodos storage []).1 <> Normal (JArray []).
Proof.
  assert (H : loadTodos {[ STORAGE_KEY := lit "[42]" ]} []
              = (Normal (JArray [JNumber (lit "42")]), [])).
  { unfold loadTodos, loadTodos_try. by rewrite lookup_singleton_eq. }
  simpl. rewrite H. repeat split; done.
Qed.

(** ** Durability *)

Lemma persisted_synced l w w' : persisted l w w' -> synced w'.
Proof.
  intros (Ht & Hs & _). unfold synced. rewrite Hs, Ht. apply lookup_insert_eq.
Qed.

(** Every handler leaves storage holding the text of the collection. *)
Lemma handle_synced w a : synced w -> synced (handle w a).
Proof.
  intros H. destruct a as [value|t|t|e| | |checked|f]; simpl;
    try exact H; try (eapply persisted_synced; apply persisted_intro).
  - unfold addTodo. simpl. destruct (trim value); [exact H|].
    unfold synced. simpl. apply lookup_insert_eq.
  - unfold commit. destruct (truthy _); eapply persisted_synced; apply persisted_intro.
Qed.

Lemma run_synced actions w : synced w -> synced (run w actions).
Proof.
  revert w. induction actions as [|a actions IH]; intros w H; [exact H|].
  apply IH. by apply handle_synced.
Qed.

(** A reload after any session that started in step with storage observes
    the collection of the page. *)
Lemma reload_after_run actions w console :
  synced w -> Forall wf_todo (todos (run w actions)) ->
  loadTodos (localStorage (run w actions)) console
  = (Normal (json_of_todos (todos (run w actions))), console).
Proof.
  intros Hs Hwf. apply (run_synced actions) in Hs.
  unfold loadTodos, loadTodos_try. rewrite Hs, JSON_stringify_truthy.
  cbn [negb]. by rewrite JSON_parse_stringify.
Qed.

(** * Further properties of the program *)

(** ** Counting and clearing *)

Section Counting.

Implicit Types (l : list Todo) (w : World).

Lemma forallb_completed_remaining l :
  forallb (fun t => completed t) l = true <-> remaining_count l = O.
Proof.
  induction l as [|t l IH]; simpl; [done|].
  destruct (completed t); simpl; [exact IH|]. split; [done|lia].
Qed.

Lemma List_filter_idem (f : Todo -> bool) l :
  List.filter f (List.filter f l) = List.filter f l.
Proof.
  induction l as [|t l IH]; [done|].
  simpl. destruct (f t) eqn:E; [|exact IH]. simpl. by rewrite E, IH.
Qed.

Lemma List_filter_comm (f g : Todo -> bool) l :
  List.filter f (List.filter g l) = List.filter g (List.filter f l).
Proof.
  induction l as [|t l IH]; [done|].
  simpl. destruct (f t) eqn:Ef, (g t) eqn:Eg; simpl; rewrite ?Ef, ?Eg; congruence.
Qed.

Lemma active_filter_all l :
  Forall (fun t => completed t = false) (List.filter (fun t => negb (completed t)) l).
Proof.
  induction l as [|t l IH]; simpl; [constructor|].
  destruct (completed t) eqn:E; simpl; [exact IH|by constructor].
Qed.

Lemma remaining_count_active l :
  Forall (fun t => completed t = false) l -> remaining_count l = length l.
Proof.
  induction 1 as [|t l Ht _ IH]; [done|]. simpl. by rewrite Ht, IH.
Qed.

Lemma remaining_count_completed l :
  (length (List.filter (fun t => completed t) l) + remaining_count l)%nat = length l.
Proof.
  induction l as [|t l IH]; [done|].
  simpl. destruct (completed t); simpl; lia.
Qed.

Lemma shown_active l :
  List.filter (shown Active) l = List.filter (fun t => negb (completed t)) l.
Proof. reflexivity. Qed.

Lemma shown_completed l :
  List.filter (shown Completed) l = List.filter (fun t => completed t) l.
Proof. reflexivity. Qed.

Lemma shown_all l : List.filter (shown All) l = l.
Proof. induction l as [|t l IH]; [done|]. simpl. by rewrite IH. Qed.

(** X1. [clearCompleted] keeps exactly the tasks with [completed = false],
    in their order, and persists and renders the result; the remaining
    count is the same before and after and is now the size of the
    collection; clearing a second time changes no task. *)
Theorem clearCompleted_spec (w : World) :
  let w' := clearCompleted w in
  persisted (filter (fun t => completed t = false) (todos w)) w w'
  /\ Forall (fun t => completed t = false) (todos w')
  /\ remaining_count (todos w') = remaining_count (todos w)
  /\ length (todos w') = remaining_count (todos w)
  /\ todos (clearCompleted w') = todos w'.
Proof.
  assert (E : List.filter (fun t => negb (completed t)) (todos w)
              = filter (fun t => completed t = false) (todos w)).
  { apply List_filter_filter. intros t. by destruct (completed t). }
  simpl. split; [rewrite <- E; apply persisted_intro|]. repeat split.
  - apply active_filter_all.
  - rewrite (remaining_count_active _ (active_filter_all _)).
    apply remaining_count_length.
  - apply remaining_count_length.
  - apply List_filter_idem.
Qed.

(** X2. After [clearCompleted] the Completed view is empty, the Active view
    shows the same rows as the All view, and the toggle-all box is
    unchecked. *)
Theorem clearCompleted_views (w : World) :
  let w' := clearCompleted w in
  rows_under Completed w' = []
  /\ rows_under Active w' = rows_under All w'
  /\ toggleAll_checked (page w') = false.
Proof.
  unfold rows_under. simpl.
  set (l := List.filter (fun t => negb (completed t)) (todos w)).
  assert (Hl : Forall (fun t => completed t = false) l) by apply active_filter_all.
  repeat split.
  - rewrite shown_completed.
    induction Hl as [|t l' Ht _ IH]; [done|]. simpl. by rewrite Ht.
  - rewrite shown_all, shown_active. f_equal.
    induction Hl as [|t l' Ht _ IH]; [done|]. simpl. by rewrite Ht, IH.
  - destruct Hl as [|t l' Ht _]; [done|]. simpl. by rewrite Ht.
Qed.

(** X3. The toggle-all handler gives every task the value of the box and
    changes neither ids nor titles nor order; afterwards the toggle-all
    box shows that value when the collection is not empty, and the
    remaining count is zero if the value is true and the size of the
    collection otherwise. *)
Theorem toggleAll_spec (w : World) (checked : bool) :
  let w' := toggleAll checked w in
  ids (todos w') = ids (todos w)
  /\ map title (todos w') = map title (todos w)
  /\ Forall (fun t => completed t = checked) (todos w')
  /\ toggleAll_checked (page w') = checked && negb (Nat.eqb (length (todos w)) 0)
  /\ remaining_count (todos w') = (if checked then O else length (todos w))
  /\ synced w'.
Proof.
  simpl. unfold ids, synced. simpl. rewrite !map_map. simpl.
  repeat split; try apply lookup_insert_eq.
  - induction (todos w) as [|t l IH]; simpl; by constructor.
  - induction (todos w) as [|t l IH]; simpl; [by destruct checked|].
    simpl in IH. destruct checked; simpl in *; [|done].
    destruct l; [done|exact IH].
  - induction (todos w) as [|t l IH]; simpl; [by destruct checked|].
    rewrite IH. by destruct checked.
Qed.

(** X4. [render] checks the toggle-all box exactly when the collection is
    not empty and no task remains to be done. *)
Theorem render_toggleAll_checked (w : World) :
  toggleAll_checked (page (render w)) = true
  <-> todos w <> [] /\ remaining_count (todos w) = O.
Proof.
  simpl. rewrite andb_true_iff, forallb_completed_remaining.
  destruct (todos w) as [|t l]; simpl; split; intros [H1 H2]; by split.
Qed.

(** X5. The filter only selects rows. The visibility of the list area and
    of the footer, the count text and the toggle-all box are the same
    under any two filters, and both areas are shown exactly when the
    collection is not empty, also when no row passes the filter. *)
Theorem render_summary_any_filter (w : World) (f g : Filter) :
  let p := page (render (set_currentFilter f w)) in
  let q := page (render (set_currentFilter g w)) in
  todoCount_textContent p = todoCount_textContent q
  /\ toggleAll_checked p = toggleAll_checked q
  /\ main_display p = main_display q
  /\ footer_display p = footer_display q
  /\ main_display p = match todos w with [] => none | _ :: _ => block end
  /\ footer_display p = match todos w with [] => none | _ :: _ => flex end.
Proof. simpl. repeat split; by destruct (todos w). Qed.

(** X6. The Active view has as many rows as the count text announces, and
    the Active and the Completed views together have as many rows as the
    All view, which has one row for each task. *)
Theorem rows_partition (w : World) :
  length (rows_under Active w) = remaining_count (todos w)
  /\ (length (rows_under Active w) + length (rows_under Completed w))%nat
     = length (rows_under All w)
  /\ length (rows_under All w) = length (todos w).
Proof.
  unfold rows_under. simpl. rewrite !length_map.
  rewrite shown_all, shown_active, shown_completed, remaining_count_length.
  pose proof (remaining_count_completed (todos w)). repeat split; lia.
Qed.

End Counting.

(** ** Sessions *)

Section Sessions.

Implicit Types (w : World) (a : Action) (actions : list Action).

Lemma run_cons w a actions : run w (a :: actions) = run (handle w a) actions.
Proof. reflexivity. Qed.

(** An action that does not write leaves the collection and storage. *)
Lemma handle_quiet w a :
  writes a = false ->
  todos (handle w a) = todos w /\ localStorage (handle w a) = localStorage w
  /\ setItem_calls (handle w a) = setItem_calls w.
Proof.
  destruct a as [value|t|t|e| | |checked|f]; simpl; try done.
  intros H. unfold addTodo. simpl. by rewrite H.
Qed.

(** X7. Filter clicks, Escape in an edit field and Enter on a blank title
    never change the collection and never touch storage, however many of
    them follow one another. *)
Theorem quiet_session (w : World) (actions : list Action) :
  Forall (fun a => writes a = false) actions ->
  todos (run w actions) = todos w
  /\ localStorage (run w actions) = localStorage w
  /\ setItem_calls (run w actions) = setItem_calls w.
Proof.
  intros H. revert w. induction H as [|a actions Ha _ IH]; intros w; [done|].
  rewrite run_cons. destruct (IH (handle w a)) as (-> & -> & ->).
  by apply handle_quiet.
Qed.

Lemma quiet_session_witness :
  let actions := [FilterClick Active; NewTodoEnter (lit "  "); EditEscape;
                  FilterClick Completed] in
  todos (run sample_world actions) = todos sample_world
  /\ localStorage (run sample_world actions) = localStorage sample_world
  /\ setItem_calls (run sample_world actions) = setItem_calls sample_world.
Proof.
  apply (quiet_session sample_world). repeat constructor.
Defined.

(** X8. A session writes to storage once for each action that mutates,
    renders once for each action except Enter on a blank title, and draws
    one id for each Enter in the new-task field, blank or not. *)
Theorem session_effects (w : World) (actions : list Action) :
  setItem_calls (run w actions)
  = (setItem_calls w + length (List.filter writes actions))%nat
  /\ render_calls (run w actions)
     = (render_calls w + length (List.filter renders actions))%nat
  /\ random_calls (run w actions)
     = (random_calls w + length (List.filter draws actions))%nat.
Proof.
  revert w. induction actions as [|a actions IH]; intros w; [simpl; lia|].
  rewrite run_cons. destruct (IH (handle w a)) as (-> & -> & ->).
  destruct a as [value|t|t|e| | |checked|f]; simpl; try lia.
  - unfold addTodo. simpl. destruct (truthy (trim value)); simpl; lia.
  - unfold commit. destruct (truthy _); simpl; lia.
Qed.

(** Storage under another key than [STORAGE_KEY]. *)
Lemma handle_other_key w a k :
  k <> STORAGE_KEY -> localStorage (handle w a) !! k = localStorage w !! k.
Proof.
  intros Hk.
  assert (Hs : forall w0, localStorage (render (saveTodos w0)) !! k = localStorage w0 !! k).
  { intros w0. simpl. by rewrite lookup_insert_ne. }
  destruct a as [value|t|t|e| | |checked|f]; simpl; try done;
    try (by rewrite lookup_insert_ne).
  - unfold addTodo. simpl. destruct (truthy (trim value)); simpl; [|done].
    by rewrite lookup_insert_ne.
  - unfold commit. destruct (truthy _); simpl; by rewrite lookup_insert_ne.
Qed.

(** X9. The program owns one key of the storage: no session changes what
    is stored, or absent, under any other key. *)
Theorem session_other_keys (w : World) (actions : list Action) (k : jsstring) :
  k <> STORAGE_KEY -> localStorage (run w actions) !! k = localStorage w !! k.
Proof.
  intros Hk. revert w. induction actions as [|a actions IH]; intros w; [done|].
  rewrite run_cons, IH. by apply handle_other_key.
Qed.

Lemma session_other_keys_witness :
  let actions := [NewTodoEnter (lit "Feed the cat"); ClearCompletedClick] in
  localStorage (run sample_world actions) !! lit "theme"
  = localStorage sample_world !! lit "theme".
Proof.
  apply (session_other_keys sample_world). discriminate.
Defined.

Lemma trimmed_filter (f : Todo -> bool) l : trimmed l -> trimmed (List.filter f l).
Proof.
  induction 1 as [|t l Ht _ IH]; simpl; [constructor|].
  destruct (f t); [by constructor|exact IH].
Qed.

Lemma trimmed_map_title i s l :
  trim s <> [] -> trimmed l ->
  trimmed (map (fun t => if bool_decide (id t = i)
                         then mkTodo (id t) (trim s) (completed t) else t) l).
Proof.
  intros Hs. induction 1 as [|t l Ht _ IH]; simpl; [constructor|].
  constructor; [|exact IH]. case_bool_decide; [|exact Ht].
  simpl. by rewrite trim_idem.
Qed.

Lemma trimmed_map_same_title (g : Todo -> Todo) l :
  (forall t, title (g t) = title t) -> trimmed l -> trimmed (map g l).
Proof.
  intros Hg. induction 1 as [|t l Ht _ IH]; simpl; [constructor|].
  constructor; [by rewrite Hg|exact IH].
Qed.

(** Every handler keeps titles trimmed and not empty. *)
Lemma handle_trimmed w a : trimmed (todos w) -> trimmed (todos (handle w a)).
Proof.
  intros H.
  destruct a as [value|t|t|e| | |checked|f]; simpl; try done;
    try (by apply trimmed_filter).
  - unfold addTodo. simpl. destruct (trim value) as [|c r] eqn:E; [exact H|].
    simpl. constructor; [|exact H]. simpl. rewrite <- E, trim_idem.
    split; [done|by rewrite E].
  - apply trimmed_map_same_title; [|exact H]. intros t'. by case_bool_decide.
  - unfold commit. destruct (trim (editInput_value e)) as [|c r] eqn:E; simpl.
    + by apply trimmed_filter.
    + rewrite <- E. apply trimmed_map_title; [|exact H]. by rewrite trim_idem, E.
  - by apply trimmed_map_same_title.
Qed.

(** X10. Titles are stored trimmed: in a collection in which every title is
    its own trimmed form and is not empty, this is still so after any
    session, whatever the user types in the new-task field and in edit
    fields. *)
Theorem session_trimmed (w : World) (actions : list Action) :
  trimmed (todos w) -> trimmed (todos (run w actions)).
Proof.
  revert w. induction actions as [|a actions IH]; intros w H; [exact H|].
  rewrite run_cons. apply IH. by apply handle_trimmed.
Qed.

Lemma sample_trimmed : trimmed sample_todos.
Proof. repeat constructor; discriminate. Qed.

Lemma session_trimmed_witness :
  trimmed (todos (run sample_world
    [NewTodoEnter (lit "  Feed the cat "); NewTodoEnter (lit "   ");
     EditCommit (mkEdit (mkTodo (lit "a") (lit "Buy milk") false) (lit " Buy oat milk  "));
     EditCommit (mkEdit (mkTodo (lit "c") (lit "Call home") false) (lit "  "))])).
Proof. exact (session_trimmed sample_world _ sample_trimmed). Defined.

(** An action that writes leaves storage in step with the collection,
    whatever storage held before. *)
Lemma handle_writes_synced w a : writes a = true -> synced (handle w a).
Proof.
  destruct a as [value|t|t|e| | |checked|f]; simpl; try done; intros H;
    try (eapply persisted_synced; apply persisted_intro).
  - unfold addTodo. simpl. rewrite H. unfold synced. simpl. apply lookup_insert_eq.
  - unfold commit. destruct (truthy _); eapply persisted_synced; apply persisted_intro.
Qed.

(** X11. Once a session contains an action that writes (any action but a
    filter click, Escape or Enter on a blank title), whatever storage held
    before, storage holds the text of the collection at the end of the
    session, and a reload reads back exactly the collection of the page
    and logs nothing. *)
Theorem reload_after_session (w : World) (actions : list Action) (console : list exn) :
  Exists (fun a => writes a = true) actions ->
  Forall wf_todo (todos (run w actions)) ->
  synced (run w actions)
  /\ loadTodos (localStorage (run w actions)) console
     = (Normal (json_of_todos (todos (run w actions))), console)
  /\ todos_of_json (json_of_todos (todos (run w actions)))
     = Some (todos (run w actions)).
Proof.
  intros Hex Hwf.
  assert (Hs : synced (run w actions)).
  { clear Hwf. revert w. induction Hex as [a actions Ha|a actions _ IH]; intros w.
    - rewrite run_cons. apply run_synced. by apply handle_writes_synced.
    - rewrite run_cons. apply IH. }
  split; [exact Hs|]. split; [|apply todos_of_json_of_todos].
  unfold loadTodos, loadTodos_try. rewrite Hs, JSON_stringify_truthy.
  cbn [negb]. by rewrite JSON_parse_stringify.
Qed.

Lemma reload_after_session_witness :
  let w' := run sample_world [ToggleAllChange true; FilterClick Active] in
  synced w'
  /\ loadTodos (localStorage w') [] = (Normal (json_of_todos (todos w')), [])
  /\ todos_of_json (json_of_todos (todos w')) = Some (todos w').
Proof.
  apply (reload_after_session sample_world [ToggleAllChange true; FilterClick Active] []).
  - left. reflexivity.
  - repeat constructor.
Defined.

(** X12. The highlighted filter link is the active filter: after a filter
    click both are the filter clicked, and they are still equal after any
    session that follows. *)
Theorem session_selected_filter (w : World) (actions : list Action) (f : Filter) :
  selected_filter (page (run (handle w (FilterClick f)) actions))
  = currentFilter (run (handle w (FilterClick f)) actions)
  /\ selected_filter (page (handle w (FilterClick f))) = f
  /\ currentFilter (handle w (FilterClick f)) = f.
Proof.
  split; [|by split].
  assert (H : selected_filter (page (handle w (FilterClick f)))
              = currentFilter (handle w (FilterClick f))) by reflexivity.
  revert H. generalize (handle w (FilterClick f)). clear w f.
  induction actions as [|a actions IH]; intros w H; [exact H|].
  rewrite run_cons. apply IH.
  destruct a as [value|t|t|e| | |checked|g]; simpl; try exact H; try done.
  - unfold addTodo. simpl. by destruct (truthy (trim value)).
  - unfold commit. by destruct (truthy _).
Qed.

End Sessions.

(** ** Identity of tasks *)

Section Identity.

Implicit Types (l : list Todo) (t : Todo) (w : World) (i : jsstring).

Lemma ids_map_same_id (g : Todo -> Todo) l :
  (forall t, id (g t) = id t) -> ids (map g l) = ids l.
Proof.
  intros Hg. unfold ids. rewrite map_map. apply map_ext. exact Hg.
Qed.

Lemma ids_filter_elem (f : Todo -> bool) l i :
  i ∈ ids (List.filter f l) -> i ∈ ids l.
Proof.
  induction l as [|t l IH]; simpl; [done|].
  destruct (f t); simpl.
  - intros H. apply elem_of_cons in H as [->|H]; [left|right; auto].
  - intros H. right. auto.
Qed.

Lemma NoDup_ids_filter (f : Todo -> bool) l :
  NoDup (ids l) -> NoDup (ids (List.filter f l)).
Proof.
  induction l as [|t l IH]; simpl; [done|].
  intros H. apply NoDup_cons in H as [Hnot Hl].
  destruct (f t); simpl; [|auto].
  apply NoDup_cons. split; [|auto].
  intros H. apply Hnot. by apply ids_filter_elem in H.
Qed.

(** With unique ids, two tasks of the collection with the same id are the
    same task. *)
Lemma same_id_same_task l t t' :
  NoDup (ids l) -> t ∈ l -> t' ∈ l -> id t = id t' -> t = t'.
Proof.
  induction l as [|x l IH]; simpl; intros Hnd Ht Ht' E; [by apply elem_of_nil in Ht|].
  apply NoDup_cons in Hnd as [Hnot Hl].
  apply elem_of_cons in Ht as [->|Ht]; apply elem_of_cons in Ht' as [->|Ht'].
  - done.
  - exfalso. apply Hnot. rewrite E. by apply elem_of_ids.
  - exfalso. apply Hnot. rewrite <- E. by apply elem_of_ids.
  - by apply IH.
Qed.

Lemma remaining_count_app l1 l2 :
  remaining_count (l1 ++ l2) = (remaining_count l1 + remaining_count l2)%nat.
Proof.
  induction l1 as [|t l1 IH]; [done|]. simpl. destruct (completed t); lia.
Qed.

(** X13. Ids stay unique. In a collection with unique ids, every action
    leaves the ids unique, provided that, when the action adds a task,
    the id drawn for it is not the id of a task of the collection. *)
Theorem handle_unique_ids (w : World) (a : Action) :
  NoDup (ids (todos w)) ->
  (forall value, a = NewTodoEnter value -> trim value <> [] ->
                 (uid w).1 ∉ ids (todos w)) ->
  NoDup (ids (todos (handle w a))).
Proof.
  intros Hnd Hfresh.
  destruct a as [value|t|t|e| | |checked|f]; simpl; try done;
    try (by apply NoDup_ids_filter).
  - unfold addTodo. simpl. destruct (trim value) as [|c r] eqn:E; [exact Hnd|].
    simpl. apply NoDup_cons. split; [|exact Hnd].
    apply (Hfresh value eq_refl). by rewrite E.
  - rewrite ids_map_same_id; [exact Hnd|]. intros t'. by case_bool_decide.
  - unfold commit. destruct (truthy _); simpl; [|by apply NoDup_ids_filter].
    rewrite ids_map_same_id; [exact Hnd|]. intros t'. by case_bool_decide.
  - by rewrite ids_map_same_id.
Qed.

Lemma sample_unique : NoDup (ids sample_todos).
Proof. apply (bool_decide_unpack _). by vm_compute. Qed.

Lemma k0_absent : lit "k0" ∉ ids sample_todos.
Proof. apply (bool_decide_unpack _). by vm_compute. Qed.

Lemma handle_unique_ids_witness :
  NoDup (ids (todos (handle sample_world (NewTodoEnter (lit "Feed the cat"))))).
Proof.
  apply (handle_unique_ids sample_world (NewTodoEnter (lit "Feed the cat")) sample_unique).
  intros value _ _. exact k0_absent.
Defined.

(** X14. Nothing but the random source keeps ids unique on adding: after
    [addTodo] with a title that does not trim to nothing, the ids are
    unique exactly when they were unique before and the id drawn is not
    already the id of a task. *)
Theorem addTodo_unique_iff (w : World) (value : jsstring) :
  trim value <> [] ->
  NoDup (ids (todos (addTodo value w)))
  <-> ((uid w).1 ∉ ids (todos w)) /\ NoDup (ids (todos w)).
Proof.
  intros Hv. unfold addTodo. simpl.
  destruct (trim value) as [|c r]; [done|]. simpl. apply NoDup_cons.
Qed.

Lemma addTodo_unique_iff_witness :
  NoDup (ids (todos (addTodo (lit "New") colliding_world)))
  <-> ((uid colliding_world).1 ∉ ids (todos colliding_world))
      /\ NoDup (ids (todos colliding_world)).
Proof. apply (addTodo_unique_iff colliding_world (lit "New")). discriminate. Defined.

(** In the colliding world the draw repeats an id, and the collection ends
    up with two tasks of the same id. *)
Example addTodo_collision_sample :
  ids (todos (addTodo (lit "New") colliding_world)) = [lit "k0"; lit "k0"].
Proof. reflexivity. Qed.

Lemma strip_newlines_none s :
  Forall (fun c => c <> 10 /\ c <> 13) s -> strip_newlines s = s.
Proof.
  induction 1 as [|c s [H10 H13] _ IH]; [done|].
  unfold strip_newlines in *. simpl.
  destruct (N.eqb_spec c 10); [done|]. destruct (N.eqb_spec c 13); [done|].
  simpl. by rewrite IH.
Qed.

(** X15. Leaving an edit field without changing it changes no task: when
    ids are unique and the title of the task has no line break, is trimmed
    and is not empty, committing the session that [startEdit] opens gives
    back the collection as it was (and writes it to storage). *)
Theorem commit_unedited (w : World) (t : Todo) :
  t ∈ todos w -> NoDup (ids (todos w)) ->
  Forall (fun c => c <> 10 /\ c <> 13) (title t) ->
  trim (title t) = title t -> title t <> [] ->
  todos (commit (startEdit t) w) = todos w /\ synced (commit (startEdit t) w).
Proof.
  intros Ht Hnd Hline Htrim Hne.
  assert (Hc : commit (startEdit t) w = updateTodoTitle (id t) (title t) w).
  { unfold commit, startEdit. cbn [editInput_value edit_todo].
    rewrite (strip_newlines_none _ Hline), Htrim. by destruct (title t). }
  rewrite Hc. split; [|eapply persisted_synced; apply persisted_intro].
  unfold updateTodoTitle. rewrite render_todos, saveTodos_todos.
  cbn [todos set_todos]. rewrite Htrim. rewrite <- (map_id (todos w)) at 2.
  apply map_ext_in. intros t' Ht'. apply list_elem_of_In in Ht'.
  case_bool_decide as Eid; [|done].
  rewrite (same_id_same_task _ _ _ Hnd Ht' Ht Eid). by destruct t.
Qed.

Lemma commit_unedited_witness :
  let t := mkTodo (lit "b") (lit "Write report") true in
  todos (commit (startEdit t) sample_world) = todos sample_world
  /\ synced (commit (startEdit t) sample_world).
Proof.
  apply (commit_unedited sample_world (mkTodo (lit "b") (lit "Write report") true)).
  - apply list_elem_of_further, list_elem_of_here.
  - exact sample_unique.
  - repeat constructor; discriminate.
  - reflexivity.
  - discriminate.
Defined.

(** A title with a line break inside, as storage can hold one, does not
    survive the edit field: leaving the field unchanged renames the task. *)
Example commit_unedited_line_break :
  let t := mkTodo (lit "a") [120; 10; 121] false in
  todos (commit (startEdit t) (set_todos [t] sample_world))
  = [mkTodo (lit "a") [120; 121] false].
Proof. reflexivity. Qed.

(** X16. [removeTodo] takes out every task with the id and keeps the
    others in order; no task with the id is left, removing the same id
    again changes no task, and removals of two ids give the same
    collection in either order. *)
Theorem removeTodo_spec (w : World) (id0 : jsstring) :
  let w' := removeTodo id0 w in
  persisted (filter (fun t => id t <> id0) (todos w)) w w'
  /\ (id0 ∉ ids (todos w'))
  /\ todos (removeTodo id0 w') = todos w'
  /\ (forall id1, todos (removeTodo id1 w') = todos (removeTodo id0 (removeTodo id1 w))).
Proof.
  assert (E : List.filter (fun t => negb (bool_decide (id t = id0))) (todos w)
              = filter (fun t => id t <> id0) (todos w)).
  { apply List_filter_filter. intros t.
    by rewrite negb_true_iff, bool_decide_eq_false. }
  simpl. split; [rewrite <- E; apply persisted_intro|]. repeat split.
  - rewrite E. unfold ids. intros H.
    apply list_elem_of_fmap in H as [t [Ht H]].
    apply list_elem_of_filter in H as [H _]. by apply H.
  - apply List_filter_idem.
  - intros id1. apply List_filter_comm.
Qed.

(** X17. Adding a task and then deleting it gives back the collection,
    when the id drawn for the new task was not already in use. *)
Theorem add_then_remove (w : World) (value : jsstring) :
  trim value <> [] -> (uid w).1 ∉ ids (todos w) ->
  todos (removeTodo (uid w).1 (addTodo value w)) = todos w.
Proof.
  intros Hv Hfresh. unfold addTodo. simpl.
  destruct (trim value) as [|c r]; [done|]. simpl.
  rewrite bool_decide_eq_true_2 by done. simpl.
  by apply filter_absent.
Qed.

Lemma add_then_remove_witness :
  todos (removeTodo (uid sample_world).1 (addTodo (lit "Feed the cat") sample_world))
  = todos sample_world.
Proof.
  apply (add_then_remove sample_world (lit "Feed the cat")).
  - discriminate.
  - exact k0_absent.
Defined.

(** X18. With unique ids, ticking the box of a task moves the remaining
    count by one: down when the task was open, up when it was done. *)
Theorem toggleTodo_remaining (w : World) (t : Todo) :
  t ∈ todos w -> NoDup (ids (todos w)) ->
  (remaining_count (todos (toggleTodo (id t) w)) + (if completed t then 0 else 1))%nat
  = (remaining_count (todos w) + (if completed t then 1 else 0))%nat.
Proof.
  intros Ht Hnd.
  destruct (split_at_id (id t) _ Hnd (elem_of_ids _ _ Ht))
    as (l1 & t0 & l2 & E & Hid & H1 & H2).
  assert (t0 = t) as ->.
  { apply (same_id_same_task (todos w)); [done| |done|done].
    rewrite E. apply elem_of_app. right. left. }
  pose proof (map_at_id flip_completed (id t) l1 t l2 eq_refl H1 H2) as Hm.
  unfold flip_completed in Hm. unfold toggleTodo.
  rewrite render_todos, saveTodos_todos. cbn [todos set_todos].
  rewrite E, Hm, !remaining_count_app. simpl. destruct (completed t); simpl; lia.
Qed.

Lemma toggleTodo_remaining_witness :
  let t := mkTodo (lit "a") (lit "Buy milk") false in
  (remaining_count (todos (toggleTodo (id t) sample_world))
   + (if completed t then 0 else 1))%nat
  = (remaining_count (todos sample_world) + (if completed t then 1 else 0))%nat.
Proof.
  apply (toggleTodo_remaining sample_world (mkTodo (lit "a") (lit "Buy milk") false)).
  - apply list_elem_of_here.
  - exact sample_unique.
Defined.

End Identity.
